(** * P2 stats generator: a shallow embedding of [src/index.ts]

    The script queries Jira three times (clarification requests, stories,
    epics), normalises every raw record, joins the children to their epic in
    a plain JavaScript object used as a dictionary, and flattens the result
    into the rows of [epics.csv].

    Conventions of the embedding.
    - A JavaScript string is a [string]; one [ascii] stands for one UTF-16
      code unit, so [substring] counts the same units as
      [String.prototype.substring].
    - A value that may be missing is an [option]; [None] stands for
      [undefined] and for [null] alike. The script never tells the two
      apart: it reads such values through [?.], [||], a truthiness test or
      a comparison with a string, and the one value it uses as a property
      name, the normalised epic, is a string or [undefined], never [null].
    - A computation that may throw is an [outcome].
    - Offsets are [N]: the loop counter only ever holds multiples of 250. *)

From Stdlib Require Import Bool Ascii String List NArith Arith Lia.
Import ListNotations.
Local Open Scope string_scope.
Local Open Scope list_scope.

Set Implicit Arguments.

(** ** Outcomes: a value, or a thrown error *)

Inductive JsError : Type :=
| TypeError      (* property access on [undefined] *)
| RequestFailed. (* the promise of [client.post] was rejected *)

Inductive outcome (A : Type) : Type :=
| Returns (a : A)
| Throws (e : JsError).

Arguments Returns {A} a.
Arguments Throws {A} e.

Definition bind {A B : Type} (m : outcome A) (k : A -> outcome B) : outcome B :=
  match m with
  | Returns a => k a
  | Throws e => Throws e
  end.

Notation "x <- m ;; k" := (bind m (fun x => k))
  (at level 61, m at next level, right associativity).

(** [Array.prototype.map] with a callback that may throw: the first throw
    aborts the traversal. *)
Fixpoint mapM {A B : Type} (f : A -> outcome B) (l : list A) : outcome (list B) :=
  match l with
  | [] => Returns []
  | a :: r => b <- f a ;; bs <- mapM f r ;; Returns (b :: bs)
  end.

(** [for (const x of l) body], threading the loop state. *)
Fixpoint forOf {A S : Type} (body : S -> A -> outcome S) (l : list A) (s : S)
  : outcome S :=
  match l with
  | [] => Returns s
  | a :: r => s' <- body s a ;; forOf body r s'
  end.

(** ** JavaScript primitives used by the script *)

(** Truthiness of a string: only the empty string is falsy. *)
Definition truthy_string (s : string) : bool :=
  match s with
  | EmptyString => false
  | String _ _ => true
  end.

(** [l.includes(x)] on an array of strings. *)
Definition includes (l : list string) (x : string) : bool :=
  existsb (String.eqb x) l.

(** [s.startsWith(p)]. *)
Definition startsWith (s p : string) : bool := prefix p s.

(** [s.substring(0, 10)]. *)
Definition substring_0_10 (s : string) : string := substring 0 10 s.

(** ** The raw record of the search endpoint (interface [RawTicket])

    The members the script reads through [?.] or [||], the ones whose
    absence the specification speaks of, and the [type] of an issue link,
    which the search for the epic dereferences, are optional; the others
    are as the interface declares them. *)

Module NameRef.
Record t : Type := mk { name : string }.
End NameRef.

Module UserRef.
Record t : Type := mk { displayName : string }.
End UserRef.

Module IssueRef.
Record t : Type := mk { key : option string }.
End IssueRef.

Module IssueLink.
Record t : Type := mk {
  type : option NameRef.t;
  outwardIssue : option IssueRef.t
}.
End IssueLink.

Module Fields.
Record t : Type := mk {
  labels : option (list string);
  summary : string;
  created : option string;
  customfield_10002 : option string;       (* epic link *)
  resolutiondate : option string;
  customfield_28100 : option UserRef.t;    (* svp owner *)
  reporter : option UserRef.t;
  status : option NameRef.t;
  resolution : option NameRef.t;
  issuelinks : option (list IssueLink.t)
}.
End Fields.

Module RawTicket.
Record t : Type := mk {
  key : string;
  fields : Fields.t
}.
End RawTicket.

(** ** The normalised record (interface [Ticket]) *)

Module Ticket.
Record t : Type := mk {
  epic : option string;
  key : string;
  summary : string;
  status : string;
  created : option string;
  resolved : option string;
  svp : option string;
  reporter : option string
}.
End Ticket.

(** ** Normalisation: the callback of [.map] in [getTickets] (lines 100-109) *)

(** [link.type.name === 'Relates' &&
     link.outwardIssue?.key?.startsWith('CENPRO')]: the read of
    [link.type.name] is unguarded and throws on a link without [type]. *)
Definition relatesToProject (link : IssueLink.t) : outcome bool :=
  match IssueLink.type link with
  | None => Throws TypeError
  | Some type =>
      Returns ((NameRef.name type =? "Relates") &&
               match IssueLink.outwardIssue link with
               | Some issue =>
                   match IssueRef.key issue with
                   | Some k => startsWith k "CENPRO"
                   | None => false
                   end
               | None => false
               end)
  end.

(** [l.find(f)] with a callback that may throw: the elements are tested in
    order up to the first hit, and a throw ends the search. *)
Fixpoint findM {A : Type} (f : A -> outcome bool) (l : list A) : outcome (option A) :=
  match l with
  | [] => Returns None
  | a :: r => hit <- f a ;; if hit then Returns (Some a) else findM f r
  end.

(** [t.fields.issuelinks?.find(...)?.outwardIssue.key] *)
Definition linkedEpic (links : option (list IssueLink.t)) : outcome (option string) :=
  match links with
  | None => Returns None
  | Some l =>
      found <- findM relatesToProject l ;;
      match found with
      | None => Returns None
      | Some link =>
          match IssueLink.outwardIssue link with
          | Some issue => Returns (IssueRef.key issue)
          | None => Throws TypeError
          end
      end
  end.

(** [t.fields.customfield_10002 || <linked epic>]: the right operand is only
    evaluated when the left one is falsy. *)
Definition epicOf (f : Fields.t) : outcome (option string) :=
  match Fields.customfield_10002 f with
  | Some s =>
      if truthy_string s then Returns (Some s) else linkedEpic (Fields.issuelinks f)
  | None => linkedEpic (Fields.issuelinks f)
  end.

(** [t.fields.labels?.includes('ExecReject')], [undefined] being falsy. *)
Definition execRejected (f : Fields.t) : bool :=
  match Fields.labels f with
  | Some l => includes l "ExecReject"
  | None => false
  end.

(** [t.fields.resolution?.name !== 'Done'] *)
Definition resolutionNotDone (f : Fields.t) : bool :=
  match Fields.resolution f with
  | Some r => negb (NameRef.name r =? "Done")
  | None => true
  end.

(** The [status] member of the literal (line 103). *)
Definition statusOf (f : Fields.t) : outcome string :=
  match Fields.status f with
  | None => Throws TypeError
  | Some st =>
      if NameRef.name st =? "Done"
      then Returns (if execRejected f || resolutionNotDone f then "Rejected" else "Done")
      else Returns (NameRef.name st)
  end.

(** The members of the object literal are evaluated in source order. *)
Definition toTicket (t : RawTicket.t) : outcome Ticket.t :=
  let f := RawTicket.fields t in
  epic <- epicOf f ;;
  status <- statusOf f ;;
  Returns (Ticket.mk epic
                     (RawTicket.key t)
                     (Fields.summary f)
                     status
                     (Fields.created f)
                     (Fields.resolutiondate f)
                     (option_map UserRef.displayName (Fields.customfield_28100 f))
                     (option_map UserRef.displayName (Fields.reporter f))).

(** ** The paginated fetch ([readJiraPage], [readAllJiraTickets]) *)

Definition PAGE_SIZE : N := 250.

(** The body of the POST to [/search]. *)
Module SearchRequest.
Record t : Type := mk {
  jql : string;
  fields : list string;
  startAt : N;
  maxResults : N
}.
End SearchRequest.

Definition requestedFields : list string :=
  [ "id"; "reporter"; "customfield_10002"; "customfield_28100"; "summary";
    "created"; "resolutiondate"; "status"; "issuelinks"; "labels"; "resolution" ].

(** The remote side: what [response.data.issues] holds for a request, or the
    rejection of the request. *)
Definition Client : Type := SearchRequest.t -> outcome (option (list RawTicket.t)).

Definition pageRequest (jql : string) (startAt : N) : SearchRequest.t :=
  SearchRequest.mk jql requestedFields startAt PAGE_SIZE.

Definition readJiraPage (client : Client) (jql : string) (startAt : N)
  : outcome (option (list RawTicket.t)) :=
  client (pageRequest jql startAt).

(** [issues?.length] as a condition. *)
Definition hasLength {A : Type} (issues : option (list A)) : bool :=
  match issues with
  | Some (_ :: _) => true
  | _ => false
  end.

Definition issuesOf {A : Type} (issues : option (list A)) : list A :=
  match issues with
  | Some l => l
  | None => []
  end.

(** The loop of [readAllJiraTickets], from counter [i] with [tickets]
    collected so far. The loop has no bound of its own, so the embedding
    takes fuel: [None] in the first component means the fuel ran out. The
    second component is the list of requests sent, oldest first. *)
Fixpoint readAllJiraTickets_loop (fuel : nat) (client : Client) (jql : string)
    (i : N) (tickets : list RawTicket.t) (sent : list SearchRequest.t)
  : option (outcome (list RawTicket.t)) * list SearchRequest.t :=
  match fuel with
  | O => (None, sent)
  | S fuel' =>
      let sent' := sent ++ [pageRequest jql i] in
      match readJiraPage client jql i with
      | Throws e => (Some (Throws e), sent')
      | Returns issues =>
          if hasLength issues
          then readAllJiraTickets_loop fuel' client jql (i + PAGE_SIZE)
                 (tickets ++ issuesOf issues) sent'
          else (Some (Returns tickets), sent')
      end
  end.

Definition readAllJiraTickets (fuel : nat) (client : Client) (jql : string)
    (sent : list SearchRequest.t)
  : option (outcome (list RawTicket.t)) * list SearchRequest.t :=
  readAllJiraTickets_loop fuel client jql 0 [] sent.

Definition getTickets (fuel : nat) (client : Client) (jql : string)
    (sent : list SearchRequest.t)
  : option (outcome (list Ticket.t)) * list SearchRequest.t :=
  match readAllJiraTickets fuel client jql sent with
  | (Some r, sent') => (Some (raw <- r ;; mapM toTicket raw), sent')
  | (None, sent') => (None, sent')
  end.

(** ** Report records ([GenericIssue], [Story], [Scr], [Epic]) *)

Module GenericIssue.
Record t : Type := mk {
  key : string;
  title : string;
  status : string;
  created : string;
  resolved : option string
}.
End GenericIssue.

Definition Story : Type := GenericIssue.t.

Module Scr.
Record t : Type := mk {
  issue : GenericIssue.t;
  reporter : option string
}.
End Scr.

Module Epic.
Record t : Type := mk {
  issue : GenericIssue.t;
  svp : option string;
  stories : list Story;
  scrs : list Scr.t
}.
End Epic.

(** [ticket.created.substring] throws when [created] is undefined;
    [ticket.resolved?.substring] does not. *)
Definition toGenericIssue (ticket : Ticket.t) : outcome GenericIssue.t :=
  match Ticket.created ticket with
  | None => Throws TypeError
  | Some c =>
      Returns (GenericIssue.mk (Ticket.key ticket)
                               (Ticket.summary ticket)
                               (Ticket.status ticket)
                               (substring_0_10 c)
                               (option_map substring_0_10 (Ticket.resolved ticket)))
  end.

(** ** The object [consolidated]: a JavaScript object used as a dictionary

    [const consolidated = {}] is an ordinary object whose prototype is
    [Object.prototype]. Three of its behaviours differ from a plain
    insertion-ordered dictionary and are kept here:
    - own keys that are array indices are enumerated first, in ascending
      numeric order, before the other keys in creation order;
    - a lookup that misses the own properties continues in the prototype;
    - assigning to [__proto__] replaces the prototype and creates no own
      property. *)

Module JsObject.

Definition digit (c : ascii) : option N :=
  let n := N_of_ascii c in
  if ((48 <=? n) && (n <=? 57))%N then Some (n - 48)%N else None.

Fixpoint decimal (acc : N) (s : string) : option N :=
  match s with
  | EmptyString => Some acc
  | String c r =>
      match digit c with
      | Some d => decimal (10 * acc + d)%N r
      | None => None
      end
  end.

(** A canonical numeric string below 2^32 - 1: digits only, no leading
    zero except for ["0"] itself. *)
Definition array_index (k : string) : option N :=
  match k with
  | EmptyString => None
  | String "0" (String _ _) => None
  | _ =>
      match decimal 0 k with
      | Some n => if (n <? 4294967295)%N then Some n else None
      | None => None
      end
  end.

Definition is_array_index (k : string) : bool :=
  match array_index k with
  | Some _ => true
  | None => false
  end.

(** The names [Object.prototype] defines, [__proto__] apart. *)
Definition objectPrototypeMethods : list string :=
  [ "constructor"; "__defineGetter__"; "__defineSetter__"; "hasOwnProperty";
    "__lookupGetter__"; "__lookupSetter__"; "isPrototypeOf";
    "propertyIsEnumerable"; "toString"; "valueOf"; "toLocaleString" ].

Section Own.
Variable V : Type.

(** Own properties in creation order. *)
Definition props : Type := list (string * V).

Fixpoint own_get (o : props) (k : string) : option V :=
  match o with
  | [] => None
  | (k', v) :: r => if k' =? k then Some v else own_get r k
  end.

(** [o[k] = v] on own properties: an existing property keeps its place,
    a new one goes last. *)
Fixpoint own_set (o : props) (k : string) (v : V) : props :=
  match o with
  | [] => [(k, v)]
  | (k', v') :: r =>
      if k' =? k then (k', v) :: r else (k', v') :: own_set r k v
  end.

Fixpoint insert_by_index (n : N) (v : V) (l : list (N * V)) : list (N * V) :=
  match l with
  | [] => [(n, v)]
  | (m, w) :: r =>
      if (n <=? m)%N then (n, v) :: l else (m, w) :: insert_by_index n v r
  end.

(** The own properties whose key is an array index, by ascending index. *)
Fixpoint indexed (o : props) : list (N * V) :=
  match o with
  | [] => []
  | (k, v) :: r =>
      match array_index k with
      | Some n => insert_by_index n v (indexed r)
      | None => indexed r
      end
  end.

(** The other own properties, in creation order. *)
Definition named (o : props) : props :=
  filter (fun kv => negb (is_array_index (fst kv))) o.

(** [Object.values(o)]. *)
Definition values (o : props) : list V :=
  map snd (indexed o) ++ map snd (named o).
End Own.

End JsObject.

(** The state of [consolidated]: its own properties and, once some epic was
    stored under [__proto__], the epic record that became its prototype
    ([None]: the prototype is still [Object.prototype]). *)
Module Consolidated.
Record t : Type := mk {
  proto : option Epic.t;
  own : JsObject.props Epic.t
}.

Definition empty : t := mk None [].
End Consolidated.

(** What [consolidated[k]] evaluates to, as far as the script tells values
    apart. *)
Inductive Property : Type :=
| OwnEpic (e : Epic.t)     (* the epic record stored under the own key *)
| ProtoEpic (e : Epic.t)   (* the epic record installed as prototype *)
| OtherTruthy              (* a function, an array, a non-empty string,
                              [Object.prototype]: no [stories] or [scrs] *)
| Falsy.                   (* [undefined] or the empty string *)

Definition truthy_opt (s : option string) : bool :=
  match s with
  | Some s => truthy_string s
  | None => false
  end.

(** Truthiness of member [k] of an epic record, [None] when the record has
    no such member. The members are those of the literal at lines 169-174. *)
Definition epicMember (e : Epic.t) (k : string) : option bool :=
  let g := Epic.issue e in
  if k =? "key" then Some (truthy_string (GenericIssue.key g))
  else if k =? "created" then Some (truthy_string (GenericIssue.created g))
  else if k =? "status" then Some (truthy_string (GenericIssue.status g))
  else if k =? "title" then Some (truthy_string (GenericIssue.title g))
  else if k =? "resolved" then Some (truthy_opt (GenericIssue.resolved g))
  else if k =? "svp" then Some (truthy_opt (Epic.svp e))
  else if k =? "stories" then Some true
  else if k =? "scrs" then Some true
  else None.

Definition ofTruthiness (b : bool) : Property :=
  if b then OtherTruthy else Falsy.

Definition inObjectPrototype (k : string) : Property :=
  ofTruthiness (existsb (String.eqb k) JsObject.objectPrototypeMethods).

(** [consolidated[k]]: own properties, then the prototype chain. *)
Definition get (c : Consolidated.t) (k : string) : Property :=
  match JsObject.own_get (Consolidated.own c) k with
  | Some e => OwnEpic e
  | None =>
      match Consolidated.proto c with
      | Some p =>
          match epicMember p k with
          | Some b => ofTruthiness b
          | None => if k =? "__proto__" then ProtoEpic p else inObjectPrototype k
          end
      | None => if k =? "__proto__" then OtherTruthy else inObjectPrototype k
      end
  end.

(** [consolidated[k] = e]. *)
Definition set (c : Consolidated.t) (k : string) (e : Epic.t) : Consolidated.t :=
  if k =? "__proto__"
  then Consolidated.mk (Some e) (Consolidated.own c)
  else Consolidated.mk (Consolidated.proto c) (JsObject.own_set (Consolidated.own c) k e).

(** A property key from a possibly-undefined string. *)
Definition propertyKey (k : option string) : string :=
  match k with
  | Some s => s
  | None => "undefined"
  end.

Definition pushStory (g : Story) (e : Epic.t) : Epic.t :=
  Epic.mk (Epic.issue e) (Epic.svp e) (Epic.stories e ++ [g]) (Epic.scrs e).

Definition pushScr (s : Scr.t) (e : Epic.t) : Epic.t :=
  Epic.mk (Epic.issue e) (Epic.svp e) (Epic.stories e) (Epic.scrs e ++ [s]).

(** ** [main]: the join (lines 167-192) *)

(** Body of [for (const epic of epics)]. *)
Definition addEpic (c : Consolidated.t) (epic : Ticket.t) : outcome Consolidated.t :=
  g <- toGenericIssue epic ;;
  Returns (set c (Ticket.key epic) (Epic.mk g (Ticket.svp epic) [] [])).

(** The shape shared by the two child loops: when [consolidated[k]] is
    truthy, [push] a projection of the ticket onto one of its arrays. *)
Definition addChild {A : Type} (project : Ticket.t -> outcome A)
    (push : A -> Epic.t -> Epic.t) (c : Consolidated.t) (child : Ticket.t)
  : outcome Consolidated.t :=
  let k := propertyKey (Ticket.epic child) in
  match get c k with
  | Falsy => Returns c
  | OtherTruthy => Throws TypeError
  | OwnEpic e =>
      a <- project child ;;
      Returns (Consolidated.mk (Consolidated.proto c)
                               (JsObject.own_set (Consolidated.own c) k (push a e)))
  | ProtoEpic p =>
      a <- project child ;;
      Returns (Consolidated.mk (Some (push a p)) (Consolidated.own c))
  end.

(** Body of [for (const story of stories)]. *)
Definition addStory : Consolidated.t -> Ticket.t -> outcome Consolidated.t :=
  addChild toGenericIssue pushStory.

Definition toScr (scr : Ticket.t) : outcome Scr.t :=
  g <- toGenericIssue scr ;;
  Returns (Scr.mk g (Ticket.reporter scr)).

(** Body of [for (const scr of scrs)]. *)
Definition addScr : Consolidated.t -> Ticket.t -> outcome Consolidated.t :=
  addChild toScr pushScr.

Definition consolidate (scrs stories epics : list Ticket.t) : outcome Consolidated.t :=
  c1 <- forOf addEpic epics Consolidated.empty ;;
  c2 <- forOf addStory stories c1 ;;
  forOf addScr scrs c2.

(** ** [main]: the rows (lines 194-195) *)

Inductive Child : Type :=
| StoryChild (s : Story)
| ScrChild (s : Scr.t).

Module Row.
Record t : Type := mk {
  epic : Epic.t;
  type : string;
  child : Child
}.
End Row.

Definition storyRows (epic : Epic.t) : list Row.t :=
  map (fun story => Row.mk epic "Story" (StoryChild story)) (Epic.stories epic).

Definition scrRows (epic : Epic.t) : list Row.t :=
  map (fun scr => Row.mk epic "SCR" (ScrChild scr)) (Epic.scrs epic).

Definition flatten (c : Consolidated.t) : list Row.t :=
  flat_map storyRows (JsObject.values (Consolidated.own c))
  ++ flat_map scrRows (JsObject.values (Consolidated.own c)).

(** Lines 167-195 on the three fetched sequences. *)
Definition report (scrs stories epics : list Ticket.t) : outcome (list Row.t) :=
  c <- consolidate scrs stories epics ;;
  Returns (flatten c).

(** ** [main]: the three queries and the whole run *)

Definition TIME_FRAME : string := "startOfYear(-1)".

Definition nl : string := String "010"%char EmptyString.
Definition dq : string := String "034"%char EmptyString.

Definition jqlLine (s : string) : string := "        " ++ s ++ nl.

Definition scrsJql : string :=
  nl ++ jqlLine "project = CENPRO AND "
     ++ jqlLine ("type = " ++ dq ++ "Spec Clarification Request" ++ dq ++ " AND ")
     ++ jqlLine ("created >= " ++ TIME_FRAME)
     ++ "    ".

Definition doneSinceJql (type : string) : string :=
  nl ++ jqlLine "project = CENPRO AND "
     ++ jqlLine ("type = " ++ type ++ " AND ")
     ++ jqlLine ("status changed to " ++ dq ++ "Done" ++ dq ++ " AFTER " ++ TIME_FRAME ++ " AND ")
     ++ jqlLine (dq ++ "Spec Type" ++ dq ++ " IN (Rebuild, Change, New)")
     ++ "    ".

Definition storiesJql : string := doneSinceJql "Story".
Definition epicsJql : string := doneSinceJql "Epic".

(** The run up to the records handed to [writer.writeRecords]. An [await]
    that throws ends the run; so does running out of fuel. *)
Definition main (fuel : nat) (client : Client)
  : option (outcome (list Row.t)) * list SearchRequest.t :=
  match getTickets fuel client scrsJql [] with
  | (Some (Returns scrs), sent1) =>
      match getTickets fuel client storiesJql sent1 with
      | (Some (Returns stories), sent2) =>
          match getTickets fuel client epicsJql sent2 with
          | (Some (Returns epics), sent3) => (Some (report scrs stories epics), sent3)
          | (Some (Throws e), sent3) => (Some (Throws e), sent3)
          | (None, sent3) => (None, sent3)
          end
      | (Some (Throws e), sent2) => (Some (Throws e), sent2)
      | (None, sent2) => (None, sent2)
      end
  | (Some (Throws e), sent1) => (Some (Throws e), sent1)
  | (None, sent1) => (None, sent1)
  end.

(** ** Sample data *)

Module Sample.

Definition fields (status : string) : Fields.t :=
  Fields.mk (Some []) "summary" (Some "2023-05-01T10:00:00.000Z") None None
            None None (Some (NameRef.mk status)) (Some (NameRef.mk "Done")) (Some []).

Definition raw (key : string) : RawTicket.t :=
  RawTicket.mk key (fields "Done").

Definition relates (key : string) : IssueLink.t :=
  IssueLink.mk (Some (NameRef.mk "Relates")) (Some (IssueRef.mk (Some key))).

Definition ticket (key : string) (epic : option string) : Ticket.t :=
  Ticket.mk epic key ("Title of " ++ key) "Done"
            (Some "2023-05-01T10:00:00.000Z") None None None.

Definition issue (key : string) : GenericIssue.t :=
  GenericIssue.mk key ("Title of " ++ key) "Done" "2023-05-01" None.

(** A raw record whose epic link is the empty string and which relates
    to CENPRO-42. *)
Definition emptyEpicLink : RawTicket.t :=
  RawTicket.mk "CENPRO-7"
    (Fields.mk (Some []) "summary" (Some "2023-05-01T10:00:00.000Z") (Some EmptyString)
               None None None (Some (NameRef.mk "Done")) (Some (NameRef.mk "Done"))
               (Some [relates "CENPRO-42"])).

(** A raw record without [status]. *)
Definition noStatus : RawTicket.t :=
  RawTicket.mk "CENPRO-8"
    (Fields.mk (Some []) "summary" (Some "2023-05-01T10:00:00.000Z") None
               None None None None (Some (NameRef.mk "Done")) (Some [])).

(** A raw record without [created]. *)
Definition noCreated : RawTicket.t :=
  RawTicket.mk "CENPRO-9"
    (Fields.mk (Some []) "summary" None None
               None None None (Some (NameRef.mk "Open")) None (Some [])).

(** A raw record with a status and a creation time and nothing else that
    is optional. *)
Definition bare : RawTicket.t :=
  RawTicket.mk "CENPRO-10"
    (Fields.mk None "summary" (Some "2023-05-01T10:00:00.000Z") None
               None None None (Some (NameRef.mk "Done")) None None).

(** A remote side with two full pages and nothing after them. *)
Definition page0 : list RawTicket.t := repeat (raw "CENPRO-1") 250.
Definition page1 : list RawTicket.t := repeat (raw "CENPRO-2") 250.

Definition twoPages : Client :=
  fun req =>
    match SearchRequest.startAt req with
    | 0%N => Returns (Some page0)
    | 250%N => Returns (Some page1)
    | _ => Returns (Some [])
    end.

(** Epics whose keys are array indices, inserted as "2" then "1", and one
    story for each. *)
Definition indexedEpics : list Ticket.t := [ticket "2" None; ticket "1" None].

Definition indexedStories : list Ticket.t :=
  [ticket "CENPRO-11" (Some "2"); ticket "CENPRO-12" (Some "1")].

(** Two epics, met as CENPRO-2 then CENPRO-1, with their children. *)
Definition epics : list Ticket.t := [ticket "CENPRO-2" None; ticket "CENPRO-1" None].

Definition stories : list Ticket.t :=
  [ ticket "CENPRO-11" (Some "CENPRO-1"); ticket "CENPRO-12" (Some "CENPRO-2");
    ticket "CENPRO-13" (Some "CENPRO-1") ].

Definition scrs : list Ticket.t := [ticket "CENPRO-21" (Some "CENPRO-1")].

(** The example of the specification: one epic, a story and a
    clarification request of that epic, and a story of an unknown epic. *)
Definition E1 : Ticket.t := ticket "E1" None.
Definition S1 : Ticket.t := ticket "S1" (Some "E1").
Definition S2 : Ticket.t := ticket "S2" (Some "E2").
Definition C1 : Ticket.t := ticket "C1" (Some "E1").

Definition epicE1 : Epic.t :=
  Epic.mk (issue "E1") None [issue "S1"] [Scr.mk (issue "C1") None].

(** A story whose epic link is the name of a method of [Object.prototype],
    and a story without epic next to an epic keyed "undefined". *)
Definition storyOfToString : Ticket.t := ticket "S3" (Some "toString").
Definition storyWithoutEpic : Ticket.t := ticket "S4" None.
Definition epicUndefined : Ticket.t := ticket "undefined" None.

(** A remote side holding one epic and one story linked to it, each on a
    single page, and no clarification request. *)
Definition rawEpic : RawTicket.t := RawTicket.mk "CENPRO-1" (fields "Done").

Definition rawStory : RawTicket.t :=
  RawTicket.mk "CENPRO-11"
    (Fields.mk (Some []) "summary" (Some "2023-06-01T08:30:00.000Z")
               (Some "CENPRO-1") (Some "2023-06-02T09:00:00.000Z") None None
               (Some (NameRef.mk "Done")) (Some (NameRef.mk "Done")) None).

Definition server : Client :=
  fun req =>
    match SearchRequest.startAt req with
    | 0%N =>
        if SearchRequest.jql req =? epicsJql then Returns (Some [rawEpic])
        else if SearchRequest.jql req =? storiesJql then Returns (Some [rawStory])
        else Returns (Some [])
    | _ => Returns None
    end.

(** A remote side that rejects every request, and one that never runs out
    of records. *)
Definition down : Client := fun _ => Throws RequestFailed.
Definition endless : Client := fun _ => Returns (Some [raw "CENPRO-1"]).

(** Two epic tickets with the same key, the second with other particulars,
    and a story of that epic. *)
Definition epicFirst : Ticket.t :=
  Ticket.mk None "CENPRO-1" "First title" "Done" (Some "2023-05-01T10:00:00.000Z")
            None (Some "First owner") None.

Definition epicSecond : Ticket.t :=
  Ticket.mk None "CENPRO-1" "Second title" "Done" (Some "2023-07-01T10:00:00.000Z")
            None (Some "Second owner") None.

(** A raw record with a status and a created timestamp whose only issue
    link has no [type]. *)
Definition untypedLink : RawTicket.t :=
  RawTicket.mk "CENPRO-12"
    (Fields.mk (Some []) "summary" (Some "2023-05-01T10:00:00.000Z") None
               None None None (Some (NameRef.mk "Done")) (Some (NameRef.mk "Done"))
               (Some [IssueLink.mk None (Some (IssueRef.mk (Some "CENPRO-42")))])).

(** A remote side whose single page holds a record that normalises and the
    record with the untyped link. *)
Definition untyped : Client :=
  fun req =>
    match SearchRequest.startAt req with
    | 0%N => Returns (Some [rawEpic; untypedLink])
    | _ => Returns None
    end.

(** A remote side without clarification requests and stories that rejects
    the query for the epics. *)
Definition epicsDown : Client :=
  fun req =>
    if SearchRequest.jql req =? epicsJql then Throws RequestFailed
    else Returns (Some []).

End Sample.

(** ** Vocabulary of the properties *)

(** A link qualifies with key [k]: its type is named "Relates" and its
    outward issue has the key [k], which starts with "CENPRO". *)
Definition Qualifies (link : IssueLink.t) (k : string) : Prop :=
  (exists type, IssueLink.type link = Some type /\ NameRef.name type = "Relates") /\
  exists issue,
    IssueLink.outwardIssue link = Some issue /\
    IssueRef.key issue = Some k /\
    prefix "CENPRO" k = true.

(** The search for the epic can read [links]: every link it tests, that is
    every link up to and including the first qualifying one, has a
    [type]. *)
Inductive Scans : list IssueLink.t -> Prop :=
| scans_none : Scans []
| scans_here : forall link rest k, Qualifies link k -> Scans (link :: rest)
| scans_later : forall link rest,
    IssueLink.type link <> None ->
    (forall k, ~ Qualifies link k) ->
    Scans rest ->
    Scans (link :: rest).

(** The epic of the record can be resolved: the epic link is not empty, or
    the search can read the issue links. *)
Definition EpicResolves (f : Fields.t) : Prop :=
  (exists link, Fields.customfield_10002 f = Some link /\ link <> EmptyString) \/
  Scans (issuesOf (Fields.issuelinks f)).

(** [FirstQualifying links r]: [r] is the key of the first qualifying link
    of [links], or [None] when no link qualifies. *)
Inductive FirstQualifying : list IssueLink.t -> option string -> Prop :=
| fq_none : FirstQualifying [] None
| fq_here : forall link rest k,
    Qualifies link k -> FirstQualifying (link :: rest) (Some k)
| fq_later : forall link rest r,
    (forall k, ~ Qualifies link k) ->
    FirstQualifying rest r ->
    FirstQualifying (link :: rest) r.

(** The labels contain "ExecReject". *)
Definition LabelledExecReject (f : Fields.t) : Prop :=
  exists l, Fields.labels f = Some l /\ In "ExecReject" l.

(** The name of the resolution, when there is one. *)
Definition resolutionName (f : Fields.t) : option string :=
  option_map NameRef.name (Fields.resolution f).

(** The raw ticket with its epic-link member removed. *)
Definition withoutEpicLink (t : RawTicket.t) : RawTicket.t :=
  let f := RawTicket.fields t in
  RawTicket.mk (RawTicket.key t)
    (Fields.mk (Fields.labels f) (Fields.summary f) (Fields.created f) None
               (Fields.resolutiondate f) (Fields.customfield_28100 f)
               (Fields.reporter f) (Fields.status f) (Fields.resolution f)
               (Fields.issuelinks f)).

(** The first [n] code units of a string. *)
Definition firstChars (n : nat) (s : string) : list ascii :=
  firstn n (list_ascii_of_string s).

(** The requests for the pages at offsets [0], [250], ..., [250 * (n - 1)]. *)
Definition pageRequests (jql : string) (n : nat) : list SearchRequest.t :=
  map (fun j => pageRequest jql (PAGE_SIZE * N.of_nat j)) (seq 0 n).

(** The remote side serves [pages] for [jql]: the page at offset [250 * j]
    is the [j]-th of [pages], none of them is empty, and the page after
    them is [last], which is empty or absent. *)
Definition ServesPages (client : Client) (jql : string)
    (pages : list (list RawTicket.t)) (last : option (list RawTicket.t)) : Prop :=
  (forall j p,
      nth_error pages j = Some p ->
      p <> [] /\
      client (pageRequest jql (PAGE_SIZE * N.of_nat j)) = Returns (Some p)) /\
  (last = None \/ last = Some []) /\
  client (pageRequest jql (PAGE_SIZE * N.of_nat (length pages))) = Returns last.

(** The own keys of an object, in creation order. *)
Definition keys {V : Type} (o : JsObject.props V) : list string := map fst o.

(** Keys in the order of their first occurrence. *)
Fixpoint firstSeen (l : list string) : list string :=
  match l with
  | [] => []
  | k :: r => k :: filter (fun k' => negb (k' =? k)) (firstSeen r)
  end.

(** The keys under which the epic loop creates own properties, in the order
    the epics were encountered. *)
Definition insertionOrder (epics : list Ticket.t) : list string :=
  firstSeen (filter (fun k => negb (k =? "__proto__")) (map Ticket.key epics)).

Definition epicKey (e : Epic.t) : string := GenericIssue.key (Epic.issue e).

Definition collect {A : Type} (r : outcome A) : list A :=
  match r with
  | Returns a => [a]
  | Throws _ => []
  end.

(** The projections of the tickets of [children] that name [k] as their
    epic, in the order of [children]. *)
Definition childrenOf {A : Type} (project : Ticket.t -> outcome A) (k : string)
    (children : list Ticket.t) : list A :=
  flat_map (fun child =>
              if propertyKey (Ticket.epic child) =? k
              then collect (project child) else [])
           children.

(** [k] is not among [ks]. *)
Definition unseen (ks : list string) (k : string) : bool :=
  negb (existsb (String.eqb k) ks).

(** Successive pushes onto an epic record. *)
Definition pushAll {A : Type} (push : A -> Epic.t -> Epic.t) (l : list A) (e : Epic.t)
  : Epic.t :=
  fold_left (fun e a => push a e) l e.

(** An entry as the epic loop creates it: stored under the key of its
    record, without children. *)
Definition FreshEntry (kv : string * Epic.t) : Prop :=
  epicKey (snd kv) = fst kv /\ Epic.stories (snd kv) = [] /\ Epic.scrs (snd kv) = [].

(** The entry [kv] once the projections of the children that name its key
    are pushed onto its record. *)
Definition attach {A : Type} (project : Ticket.t -> outcome A)
    (push : A -> Epic.t -> Epic.t) (children : list Ticket.t)
    (kv : string * Epic.t) : string * Epic.t :=
  (fst kv, pushAll push (childrenOf project (fst kv) children) (snd kv)).

(** The entry [kv] after the story loop and the clarification-request
    loop. *)
Definition joined (scrs stories : list Ticket.t) (kv : string * Epic.t)
  : string * Epic.t :=
  attach toScr pushScr scrs (attach toGenericIssue pushStory stories kv).

(** Rows that follow a given order of epic keys: the Story rows of the
    epics in that order, then their SCR rows in that order. *)
Definition RowsFollow (order : list string) (rows : list Row.t) : Prop :=
  exists es : list Epic.t,
    map epicKey es = order /\
    rows = flat_map storyRows es ++ flat_map scrRows es.

(** The members of an epic record. *)
Definition epicMemberNames : list string :=
  [ "key"; "created"; "status"; "title"; "resolved"; "svp"; "stories"; "scrs" ].

(** [k] names a property that [consolidated] may inherit once the epics are
    stored: a member of [Object.prototype], or, when some epic is keyed
    [__proto__] and thereby becomes the prototype, a member of that record. *)
Definition inherited (epics : list Ticket.t) (k : string) : bool :=
  (k =? "__proto__")
  || existsb (String.eqb k) JsObject.objectPrototypeMethods
  || (existsb (fun e => Ticket.key e =? "__proto__") epics
      && existsb (String.eqb k) epicMemberNames).

(** A child ticket that the join cannot attach: its epic, read as a
    property name, is neither the key of a fetched epic nor inherited. *)
Definition Unattached (epics : list Ticket.t) (child : Ticket.t) : Prop :=
  let k := propertyKey (Ticket.epic child) in
  ~ In k (map Ticket.key epics) /\ inherited epics k = false.

(** The lookup of [k] in [c] finds neither an own property nor an
    inherited one, now and after any further push. *)
Definition Misses (c : Consolidated.t) (k : string) : Prop :=
  JsObject.own_get (Consolidated.own c) k = None /\
  (k =? "__proto__") = false /\
  existsb (String.eqb k) JsObject.objectPrototypeMethods = false /\
  (Consolidated.proto c = None \/ existsb (String.eqb k) epicMemberNames = false).

(** The remote side serves the non-empty [pages] for [jql] and rejects the
    request for the page after them with [e]. *)
Definition ServesThenRejects (client : Client) (jql : string)
    (pages : list (list RawTicket.t)) (e : JsError) : Prop :=
  (forall j p,
      nth_error pages j = Some p ->
      p <> [] /\
      client (pageRequest jql (PAGE_SIZE * N.of_nat j)) = Returns (Some p)) /\
  client (pageRequest jql (PAGE_SIZE * N.of_nat (length pages))) = Throws e.

(** The remote side has a non-empty page at every offset. *)
Definition NeverEmpty (client : Client) (jql : string) : Prop :=
  forall j, exists p,
    p <> [] /\
    client (pageRequest jql (PAGE_SIZE * N.of_nat j)) = Returns (Some p).

(** The members of a normalised ticket that are copied from its raw
    record. *)
Definition PassesThrough (raw : RawTicket.t) (tk : Ticket.t) : Prop :=
  let f := RawTicket.fields raw in
  Ticket.key tk = RawTicket.key raw /\
  Ticket.summary tk = Fields.summary f /\
  Ticket.created tk = Fields.created f /\
  Ticket.resolved tk = Fields.resolutiondate f /\
  Ticket.svp tk = option_map UserRef.displayName (Fields.customfield_28100 f) /\
  Ticket.reporter tk = option_map UserRef.displayName (Fields.reporter f).

(** The raw status name, when there is a status. *)
Definition statusName (f : Fields.t) : option string :=
  option_map NameRef.name (Fields.status f).

(** The last ticket of [l] with the key [k]. *)
Fixpoint lastWithKey (k : string) (l : list Ticket.t) : option Ticket.t :=
  match l with
  | [] => None
  | e :: r =>
      match lastWithKey k r with
      | Some e' => Some e'
      | None => if Ticket.key e =? k then Some e else None
      end
  end.

(** The child names the key of an entry of the mapping. *)
Definition attached (epics : list Ticket.t) (child : Ticket.t) : bool :=
  existsb (String.eqb (propertyKey (Ticket.epic child))) (insertionOrder epics).

(** The child names the key of a fetched epic and has a created
    timestamp. *)
Definition Joinable (epics : list Ticket.t) (child : Ticket.t) : Prop :=
  Ticket.created child <> None /\
  In (propertyKey (Ticket.epic child)) (map Ticket.key epics).

(** Where a row comes from: a Story row from a story, an SCR row from a
    clarification request whose reporter it carries; in both cases the
    ticket names the key of the row's epic. *)
Definition RowFrom (scrs stories : list Ticket.t) (r : Row.t) : Prop :=
  (Row.type r = "Story" /\
   exists s g,
     In s stories /\
     propertyKey (Ticket.epic s) = epicKey (Row.epic r) /\
     toGenericIssue s = Returns g /\
     Row.child r = StoryChild g) \/
  (Row.type r = "SCR" /\
   exists s g,
     In s scrs /\
     propertyKey (Ticket.epic s) = epicKey (Row.epic r) /\
     toGenericIssue s = Returns g /\
     Row.child r = ScrChild (Scr.mk g (Ticket.reporter s))).

(** The child can be processed in the state [c]: it has a created
    timestamp and its lookup finds an epic record (an own property, or the
    prototype installed by an epic keyed [__proto__]), or its lookup finds
    nothing. *)
Definition Ready (c : Consolidated.t) (child : Ticket.t) : Prop :=
  let k := propertyKey (Ticket.epic child) in
  (Ticket.created child <> None /\
   (In k (keys (Consolidated.own c)) \/
    (k = "__proto__" /\ Consolidated.proto c <> None))) \/
  Misses c k.

(** The child names an entry of the mapping but has no created
    timestamp. *)
Definition AttachedWithoutCreated (epics : list Ticket.t) (child : Ticket.t) : Prop :=
  attached epics child = true /\ Ticket.created child = None.

(** * Properties *)

(** ** Normalisation *)

Section Normalisation.

Lemma relatesToProject_hit (link : IssueLink.t) :
  relatesToProject link = Returns true ->
  exists issue k,
    IssueLink.outwardIssue link = Some issue /\
    IssueRef.key issue = Some k /\
    Qualifies link k.
Proof.
  unfold relatesToProject, Qualifies, startsWith.
  destruct (IssueLink.type link) as [type|]; [|discriminate].
  intros H. injection H as H. apply andb_true_iff in H as [Hname Hkey].
  apply String.eqb_eq in Hname.
  destruct (IssueLink.outwardIssue link) as [issue|]; [|discriminate].
  destruct (IssueRef.key issue) as [k|] eqn:Ek; [|discriminate].
  exists issue, k. repeat split; eauto.
Qed.

Lemma relatesToProject_miss (link : IssueLink.t) :
  relatesToProject link = Returns false ->
  IssueLink.type link <> None /\ forall k, ~ Qualifies link k.
Proof.
  unfold relatesToProject, Qualifies, startsWith.
  destruct (IssueLink.type link) as [type|]; [|discriminate].
  intros H. injection H as H. split; [discriminate|].
  intros k [[type' [Htype Hname]] [issue [Hout [Hkey Hpre]]]].
  injection Htype as Htype. subst type'.
  rewrite Hname, Hout, Hkey, Hpre in H. discriminate.
Qed.

Lemma relatesToProject_throws (link : IssueLink.t) (e : JsError) :
  relatesToProject link = Throws e -> e = TypeError /\ IssueLink.type link = None.
Proof.
  unfold relatesToProject. destruct (IssueLink.type link); [discriminate|].
  intros H. injection H as H. auto.
Qed.

Lemma relatesToProject_of_qualifies (link : IssueLink.t) (k : string) :
  Qualifies link k -> relatesToProject link = Returns true.
Proof.
  unfold relatesToProject, Qualifies, startsWith.
  intros [[type [Htype Hname]] [issue [Hout [Hkey Hpre]]]].
  now rewrite Htype, Hname, Hout, Hkey, Hpre.
Qed.

(** What the scan of the links returns is the key of the first qualifying
    link, and every link it has tested has a [type]. *)
Lemma linkedEpic_first (l : list IssueLink.t) (r : option string) :
  linkedEpic (Some l) = Returns r -> FirstQualifying l r /\ Scans l.
Proof.
  unfold linkedEpic.
  induction l as [|link rest IH]; cbn [findM bind].
  - intros H. injection H as H. subst r. split; constructor.
  - destruct (relatesToProject link) as [[|]|err] eqn:Hq; cbn [bind].
    + destruct (relatesToProject_hit _ Hq) as [issue [k [Hout [Hkey HQ]]]].
      rewrite Hout, Hkey. intros H. injection H as H. subst r.
      split; [now constructor | now apply scans_here with k].
    + intros H. destruct (IH H) as [HF HS].
      destruct (relatesToProject_miss _ Hq) as [Htyped Hno].
      split; [now apply fq_later | now apply scans_later].
    + discriminate.
Qed.

(** The scan returns when every link it tests has a [type]. *)
Lemma linkedEpic_scans (l : list IssueLink.t) :
  Scans l -> exists r, linkedEpic (Some l) = Returns r.
Proof.
  unfold linkedEpic.
  induction 1 as [|link rest k HQ|link rest Htyped Hno _ IH]; cbn [findM bind].
  - now exists None.
  - rewrite (relatesToProject_of_qualifies HQ). cbn [bind].
    destruct HQ as [_ [issue [Hout [Hkey _]]]]. rewrite Hout. eauto.
  - destruct (relatesToProject link) as [[|]|err] eqn:Hq; cbn [bind].
    + destruct (relatesToProject_hit _ Hq) as [issue [k [_ [_ HQ]]]].
      exfalso. exact (Hno k HQ).
    + exact IH.
    + apply relatesToProject_throws in Hq as [_ Hq]. contradiction.
Qed.

Lemma linkedEpic_throws (links : option (list IssueLink.t)) (e : JsError) :
  linkedEpic links = Throws e -> e = TypeError.
Proof.
  destruct links as [l|]; [|discriminate]. unfold linkedEpic.
  induction l as [|link rest IH]; cbn [findM bind]; [discriminate|].
  destruct (relatesToProject link) as [[|]|err] eqn:Hq; cbn [bind].
  - destruct (IssueLink.outwardIssue link); [discriminate|].
    intros H. injection H as H. auto.
  - exact IH.
  - intros H. injection H as H. subst err. now apply relatesToProject_throws in Hq.
Qed.

Lemma epicOf_throws (f : Fields.t) (e : JsError) : epicOf f = Throws e -> e = TypeError.
Proof.
  unfold epicOf. destruct (Fields.customfield_10002 f) as [s|].
  - destruct (truthy_string s); [discriminate | apply linkedEpic_throws].
  - apply linkedEpic_throws.
Qed.

Lemma truthy_string_nonempty (s : string) : truthy_string s = true <-> s <> EmptyString.
Proof. destruct s; simpl; split; congruence. Qed.

(** The epic member evaluates exactly when the epic link is not empty or
    the search can read the links. *)
Lemma epicOf_resolves (f : Fields.t) :
  EpicResolves f <-> exists r, epicOf f = Returns r.
Proof.
  unfold EpicResolves, epicOf.
  assert (Hscan : Scans (issuesOf (Fields.issuelinks f)) <->
                  exists r, linkedEpic (Fields.issuelinks f) = Returns r).
  { destruct (Fields.issuelinks f) as [l|]; simpl.
    - split; [apply linkedEpic_scans|].
      intros [r Hr]. now apply linkedEpic_first in Hr.
    - split; [now exists None | constructor]. }
  destruct (Fields.customfield_10002 f) as [s|].
  - destruct (truthy_string s) eqn:Es.
    + split; [eauto|]. intros _. left. exists s. split; [reflexivity|].
      now apply truthy_string_nonempty.
    + rewrite <- Hscan. split; [|tauto].
      intros [[link [E Hne]]|H]; [|exact H].
      injection E as E. subst link. apply truthy_string_nonempty in Hne. congruence.
  - rewrite <- Hscan. split; [|tauto].
    intros [[link [E _]]|H]; [discriminate E | exact H].
Qed.

(** With a status, normalisation returns as soon as the epic member
    evaluates. *)
Lemma toTicket_with_status (t : RawTicket.t) (st : NameRef.t) (epic : option string) :
  Fields.status (RawTicket.fields t) = Some st ->
  epicOf (RawTicket.fields t) = Returns epic ->
  exists status,
    statusOf (RawTicket.fields t) = Returns status /\
    toTicket t =
      Returns (Ticket.mk epic (RawTicket.key t)
                 (Fields.summary (RawTicket.fields t)) status
                 (Fields.created (RawTicket.fields t))
                 (Fields.resolutiondate (RawTicket.fields t))
                 (option_map UserRef.displayName
                    (Fields.customfield_28100 (RawTicket.fields t)))
                 (option_map UserRef.displayName
                    (Fields.reporter (RawTicket.fields t)))).
Proof.
  intros Hst He. unfold toTicket. rewrite He. simpl.
  unfold statusOf. rewrite Hst.
  destruct (NameRef.name st =? "Done"); eexists; split; reflexivity.
Qed.

Lemma toTicket_without_status (t : RawTicket.t) :
  Fields.status (RawTicket.fields t) = None ->
  toTicket t = Throws TypeError.
Proof.
  intros Hst. unfold toTicket.
  destruct (epicOf (RawTicket.fields t)) as [epic|err] eqn:He; simpl.
  - unfold statusOf. now rewrite Hst.
  - apply epicOf_throws in He. now subst err.
Qed.

(** A normalised ticket, read back. *)
Lemma toTicket_returns_inv (t : RawTicket.t) (tk : Ticket.t) :
  toTicket t = Returns tk ->
  exists st epic status,
    Fields.status (RawTicket.fields t) = Some st /\
    epicOf (RawTicket.fields t) = Returns epic /\
    statusOf (RawTicket.fields t) = Returns status /\
    Ticket.epic tk = epic /\
    Ticket.status tk = status /\
    PassesThrough t tk.
Proof.
  intros Hrun.
  destruct (Fields.status (RawTicket.fields t)) as [st|] eqn:Hst.
  - destruct (epicOf (RawTicket.fields t)) as [epic|err] eqn:He.
    + destruct (toTicket_with_status t Hst He) as [status [Hs Ht]].
      rewrite Ht in Hrun. injection Hrun as Hrun. subst tk.
      exists st, epic, status. unfold PassesThrough. simpl. repeat split; auto.
    + unfold toTicket in Hrun. rewrite He in Hrun. discriminate Hrun.
  - rewrite (toTicket_without_status t Hst) in Hrun. discriminate Hrun.
Qed.

(** Normalisation returns exactly for the records that have a status and
    whose epic can be resolved; otherwise it throws a TypeError. *)
Lemma toTicket_returns (t : RawTicket.t) :
  Fields.status (RawTicket.fields t) <> None /\ EpicResolves (RawTicket.fields t) <->
  exists tk, toTicket t = Returns tk.
Proof.
  split.
  - intros [Hst He]. apply epicOf_resolves in He as [epic He].
    destruct (Fields.status (RawTicket.fields t)) as [st|] eqn:Est; [|congruence].
    destruct (toTicket_with_status t Est He) as [status [_ Ht]]. eauto.
  - intros [tk Ht].
    apply toTicket_returns_inv in Ht as [st [epic [status [Hst [He _]]]]].
    split; [congruence|]. apply epicOf_resolves. eauto.
Qed.

Lemma toTicket_throws_TypeError (t : RawTicket.t) (e : JsError) :
  toTicket t = Throws e ->
  e = TypeError /\
  (Fields.status (RawTicket.fields t) = None \/ ~ EpicResolves (RawTicket.fields t)).
Proof.
  intros Hrun. unfold toTicket in Hrun.
  destruct (epicOf (RawTicket.fields t)) as [epic|err] eqn:He; simpl in Hrun.
  - unfold statusOf in Hrun.
    destruct (Fields.status (RawTicket.fields t)) as [st|].
    + destruct (NameRef.name st =? "Done"); discriminate Hrun.
    + injection Hrun as Hrun. auto.
  - injection Hrun as Hrun. subst err. split; [now apply epicOf_throws in He|].
    right. intros Hres. apply epicOf_resolves in Hres as [r Hr]. congruence.
Qed.

Lemma includes_In (l : list string) (x : string) :
  includes l x = true <-> In x l.
Proof.
  unfold includes. rewrite existsb_exists. split.
  - intros [y [Hy He]]. apply String.eqb_eq in He. now subst.
  - intros H. exists x. split; [exact H | apply String.eqb_refl].
Qed.

Lemma execRejected_spec (f : Fields.t) :
  execRejected f = true <-> LabelledExecReject f.
Proof.
  unfold execRejected, LabelledExecReject.
  destruct (Fields.labels f) as [l|].
  - rewrite includes_In. split.
    + intros H. now exists l.
    + intros [l' [E H]]. now inversion E; subst.
  - split; [discriminate | intros [l' [E _]]; discriminate].
Qed.

Lemma resolutionNotDone_spec (f : Fields.t) :
  resolutionNotDone f = true <-> resolutionName f <> Some "Done".
Proof.
  unfold resolutionNotDone, resolutionName.
  destruct (Fields.resolution f) as [r|]; simpl.
  - destruct (NameRef.name r =? "Done") eqn:E; simpl.
    + apply String.eqb_eq in E. rewrite E. split; [discriminate | congruence].
    + apply String.eqb_neq in E. split; [congruence | reflexivity].
  - split; [discriminate | reflexivity].
Qed.

End Normalisation.

(** C1. For every raw ticket, the normalised status is "Rejected" when the
    raw status name is exactly "Done" and the labels contain "ExecReject"
    or the resolution name is not "Done"; it is "Done" when the raw status
    name is "Done" and neither holds; and it is the raw status name itself
    when that name is not "Done". The normalised ticket exists whenever
    the record has a status and its epic can be resolved. *)
Theorem C1_status_derivation (t : RawTicket.t) (st : NameRef.t)
    (Hst : Fields.status (RawTicket.fields t) = Some st) :
  (EpicResolves (RawTicket.fields t) -> exists tk, toTicket t = Returns tk) /\
  forall tk,
    toTicket t = Returns tk ->
    let f := RawTicket.fields t in
    let n := NameRef.name st in
    (n = "Done" ->
     LabelledExecReject f \/ resolutionName f <> Some "Done" ->
     Ticket.status tk = "Rejected") /\
    (n = "Done" ->
     ~ (LabelledExecReject f \/ resolutionName f <> Some "Done") ->
     Ticket.status tk = "Done") /\
    (n <> "Done" -> Ticket.status tk = n).
Proof.
  split.
  { intros He. apply toTicket_returns. split; [congruence | exact He]. }
  intros tk Hrun.
  apply toTicket_returns_inv in Hrun
    as [st' [epic [status [Hst' [_ [Hs [_ [Hstatus _]]]]]]]].
  rewrite Hstatus. clear Hst' st'. simpl.
  unfold statusOf in Hs. rewrite Hst in Hs.
  destruct (NameRef.name st =? "Done") eqn:En.
  - apply String.eqb_eq in En. injection Hs as Hs. subst status.
    destruct (execRejected (RawTicket.fields t) || resolutionNotDone (RawTicket.fields t))
      eqn:Ec.
    + split; [|split].
      * reflexivity.
      * intros _ Hno. exfalso. apply Hno.
        apply orb_true_iff in Ec as [Ec|Ec].
        -- left. now apply execRejected_spec.
        -- right. now apply resolutionNotDone_spec.
      * congruence.
    + apply orb_false_iff in Ec as [El Er].
      split; [|split].
      * intros _ [Hl|Hr].
        -- apply execRejected_spec in Hl. congruence.
        -- apply resolutionNotDone_spec in Hr. congruence.
      * reflexivity.
      * congruence.
  - apply String.eqb_neq in En. injection Hs as Hs. subst status.
    split; [|split]; congruence.
Qed.

Lemma C1_status_derivation_witness :
  Fields.status (RawTicket.fields (Sample.raw "CENPRO-7")) = Some (NameRef.mk "Done") /\
  exists tk,
    toTicket (Sample.raw "CENPRO-7") = Returns tk /\ Ticket.status tk = "Done".
Proof.
  split; [reflexivity|].
  destruct (C1_status_derivation (Sample.raw "CENPRO-7") (st := NameRef.mk "Done") eq_refl)
    as [Hreturns Hstatus].
  destruct Hreturns as [tk Ht]; [right; constructor|].
  exists tk. split; [exact Ht|].
  destruct (Hstatus tk Ht) as [_ [Hdone _]].
  apply Hdone; [reflexivity|].
  intros [[l [El Hin]]|Hr].
  - simpl in El. injection El as El. subst l. exact Hin.
  - apply Hr. reflexivity.
Defined.

(** C9. For every raw ticket whose status name is "Done" and whose
    resolution structure is absent, the normalised status is "Rejected",
    whatever the labels. The normalised ticket exists whenever the epic of
    the record can be resolved. *)
Theorem C9_done_without_resolution_is_rejected (t : RawTicket.t) (st : NameRef.t)
    (Hst : Fields.status (RawTicket.fields t) = Some st)
    (Hdone : NameRef.name st = "Done")
    (Hres : Fields.resolution (RawTicket.fields t) = None) :
  (EpicResolves (RawTicket.fields t) -> exists tk, toTicket t = Returns tk) /\
  forall tk, toTicket t = Returns tk -> Ticket.status tk = "Rejected".
Proof.
  split.
  { intros He. apply toTicket_returns. split; [congruence | exact He]. }
  intros tk Hrun.
  apply toTicket_returns_inv in Hrun
    as [st' [epic [status [_ [_ [Hs [_ [Hstatus _]]]]]]]].
  rewrite Hstatus.
  unfold statusOf in Hs. rewrite Hst, Hdone in Hs. simpl in Hs.
  unfold resolutionNotDone in Hs. rewrite Hres in Hs.
  rewrite orb_true_r in Hs. congruence.
Qed.

Lemma C9_done_without_resolution_is_rejected_witness :
  exists tk, toTicket Sample.bare = Returns tk /\ Ticket.status tk = "Rejected".
Proof.
  destruct (C9_done_without_resolution_is_rejected Sample.bare (st := NameRef.mk "Done")
              eq_refl eq_refl eq_refl) as [Hreturns Hstatus].
  destruct Hreturns as [tk Ht]; [right; constructor|].
  exists tk. split; [exact Ht | exact (Hstatus tk Ht)].
Defined.

(** The claim of C2 as the specification words it fails on a present but
    empty epic link: the record below carries the empty string as epic link and
    relates to CENPRO-42, and its normalised epic is "CENPRO-42", not the
    epic-link value. *)
Lemma C2_empty_epic_link_counterexample :
  Fields.customfield_10002 (RawTicket.fields Sample.emptyEpicLink) = Some EmptyString /\
  exists tk,
    toTicket Sample.emptyEpicLink = Returns tk /\
    Ticket.epic tk = Some "CENPRO-42" /\
    Ticket.epic tk <> Fields.customfield_10002 (RawTicket.fields Sample.emptyEpicLink).
Proof.
  split; [reflexivity|].
  eexists. split; [reflexivity|]. simpl. split; [reflexivity | discriminate].
Qed.

(** C2, amended. For every raw ticket, the normalised epic equals the
    explicit epic-link field when that field is present and not the empty
    string; when it is absent or empty, the epic is the linked-issue key of
    the first issue link, in link-list order, whose type is named "Relates"
    and whose linked-issue key starts with "CENPRO", and it is undefined
    when there is no such link. The normalised ticket exists whenever the
    record has a status and its epic can be resolved. *)
Theorem C2_epic_resolution (t : RawTicket.t) (st : NameRef.t)
    (Hst : Fields.status (RawTicket.fields t) = Some st) :
  (EpicResolves (RawTicket.fields t) -> exists tk, toTicket t = Returns tk) /\
  forall tk,
    toTicket t = Returns tk ->
    let f := RawTicket.fields t in
    (forall link,
        Fields.customfield_10002 f = Some link -> link <> EmptyString ->
        Ticket.epic tk = Some link) /\
    (Fields.customfield_10002 f = None \/ Fields.customfield_10002 f = Some EmptyString ->
     FirstQualifying (issuesOf (Fields.issuelinks f)) (Ticket.epic tk)).
Proof.
  split.
  { intros He. apply toTicket_returns. split; [congruence | exact He]. }
  intros tk Hrun.
  apply toTicket_returns_inv in Hrun
    as [st' [epic [status [_ [He [_ [Hepic _]]]]]]].
  rewrite Hepic. simpl.
  unfold epicOf in He.
  assert (Hfallback :
            linkedEpic (Fields.issuelinks (RawTicket.fields t)) = Returns epic ->
            FirstQualifying (issuesOf (Fields.issuelinks (RawTicket.fields t))) epic).
  { destruct (Fields.issuelinks (RawTicket.fields t)) as [l|].
    - intros E. now apply linkedEpic_first in E.
    - simpl. intros E. injection E as E. rewrite <- E. constructor. }
  split.
  - intros link Hl Hne. rewrite Hl in He.
    destruct link as [|c r]; [congruence|]. simpl in He. congruence.
  - intros [Hn|Hn]; rewrite Hn in He; simpl in He; auto.
Qed.

Lemma C2_epic_resolution_witness :
  exists tk,
    toTicket Sample.emptyEpicLink = Returns tk /\
    FirstQualifying [Sample.relates "CENPRO-42"] (Ticket.epic tk).
Proof.
  destruct (C2_epic_resolution Sample.emptyEpicLink (st := NameRef.mk "Done") eq_refl)
    as [Hreturns Hepic].
  destruct Hreturns as [tk Ht].
  { right. apply scans_here with "CENPRO-42". split; [now eexists | now eexists]. }
  exists tk. split; [exact Ht|].
  destruct (Hepic tk Ht) as [_ Hf]. apply Hf. right. reflexivity.
Defined.

(** C10. For every raw ticket whose epic-link field is present but is the
    empty string, epic resolution does not use the field: the normalised
    epic is the key of the first issue link whose type is named "Relates"
    and whose linked-issue key starts with "CENPRO", undefined when there
    is none, and the whole normalisation is that of the same record
    without the epic-link field. *)
Theorem C10_empty_epic_link_falls_back (t : RawTicket.t)
    (Hempty : Fields.customfield_10002 (RawTicket.fields t) = Some EmptyString) :
  toTicket t = toTicket (withoutEpicLink t) /\
  (forall tk,
      toTicket t = Returns tk ->
      FirstQualifying (issuesOf (Fields.issuelinks (RawTicket.fields t)))
                      (Ticket.epic tk)) /\
  (Fields.status (RawTicket.fields t) <> None ->
   Scans (issuesOf (Fields.issuelinks (RawTicket.fields t))) ->
   exists tk,
     toTicket t = Returns tk /\
     FirstQualifying (issuesOf (Fields.issuelinks (RawTicket.fields t)))
                     (Ticket.epic tk)).
Proof.
  assert (He : epicOf (RawTicket.fields t)
               = linkedEpic (Fields.issuelinks (RawTicket.fields t))).
  { unfold epicOf. now rewrite Hempty. }
  assert (Hfirst : forall tk,
             toTicket t = Returns tk ->
             FirstQualifying (issuesOf (Fields.issuelinks (RawTicket.fields t)))
                             (Ticket.epic tk)).
  { intros tk Hrun.
    apply toTicket_returns_inv in Hrun
      as [st [epic [status [_ [Hepic [_ [Htk _]]]]]]].
    rewrite Htk. rewrite He in Hepic.
    destruct (Fields.issuelinks (RawTicket.fields t)) as [l|].
    - now apply linkedEpic_first in Hepic.
    - simpl in *. injection Hepic as Hepic. rewrite <- Hepic. constructor. }
  split; [|split].
  - unfold toTicket. rewrite He. reflexivity.
  - exact Hfirst.
  - intros Hst Hscans.
    destruct (proj1 (toTicket_returns t)) as [tk Ht].
    { split; [exact Hst | now right]. }
    exists tk. split; [exact Ht | exact (Hfirst tk Ht)].
Qed.

Lemma C10_empty_epic_link_falls_back_witness :
  exists tk,
    toTicket Sample.emptyEpicLink = Returns tk /\
    Ticket.epic tk = Some "CENPRO-42" /\
    toTicket (withoutEpicLink Sample.emptyEpicLink) = Returns tk.
Proof.
  destruct (C10_empty_epic_link_falls_back Sample.emptyEpicLink eq_refl)
    as [Hsame [_ Hreturns]].
  destruct Hreturns as [tk [Ht Hfirst]].
  - discriminate.
  - apply scans_here with "CENPRO-42". split; [now eexists | now eexists].
  - exists tk. split; [exact Ht|]. split; [|now rewrite <- Hsame].
    simpl in Hfirst.
    inversion Hfirst as [|link rest k HQ|link rest r Hno _]; subst.
    + destruct HQ as [_ [issue [Hout [Hkey _]]]].
      simpl in Hout. injection Hout as Hout. subst issue.
      simpl in Hkey. injection Hkey as Hkey. now subst k.
    + exfalso. apply (Hno "CENPRO-42").
      split; [now eexists | now eexists].
Defined.

(** ** Generic-issue projection *)

Lemma substring_firstn (n : nat) (s : string) :
  list_ascii_of_string (substring 0 n s) = firstn n (list_ascii_of_string s).
Proof.
  revert s. induction n as [|n IH]; intros s.
  - destruct s; reflexivity.
  - destruct s as [|c r]; simpl; [reflexivity|]. now rewrite IH.
Qed.

(** C7. For every normalised ticket (with a created timestamp), the
    generic-issue projection sets [created] to the first 10 characters of
    the created timestamp, and [resolved] to the first 10 characters of the
    resolved timestamp when there is one, and to undefined otherwise. *)
Theorem C7_date_truncation (ticket : Ticket.t) (c : string)
    (Hc : Ticket.created ticket = Some c) :
  exists g,
    toGenericIssue ticket = Returns g /\
    list_ascii_of_string (GenericIssue.created g) = firstChars 10 c /\
    match Ticket.resolved ticket with
    | Some r =>
        exists d, GenericIssue.resolved g = Some d /\
                  list_ascii_of_string d = firstChars 10 r
    | None => GenericIssue.resolved g = None
    end.
Proof.
  unfold toGenericIssue. rewrite Hc.
  eexists. split; [reflexivity|]. simpl. split.
  - apply substring_firstn.
  - destruct (Ticket.resolved ticket) as [r|]; simpl; [|reflexivity].
    eexists. split; [reflexivity | apply substring_firstn].
Qed.

Lemma C7_date_truncation_witness :
  exists g,
    toGenericIssue (Sample.ticket "CENPRO-7" None) = Returns g /\
    GenericIssue.created g = "2023-05-01" /\
    GenericIssue.resolved g = None.
Proof.
  destruct (C7_date_truncation (Sample.ticket "CENPRO-7" None) eq_refl)
    as [g [Hg [Hcreated Hresolved]]].
  exists g. split; [exact Hg|]. split; [|exact Hresolved].
  rewrite <- (string_of_list_ascii_of_string (GenericIssue.created g)), Hcreated.
  reflexivity.
Defined.

(** ** Absent members *)

(** The claim of C8 as the specification words it fails for [status] and
    for the created timestamp: a record without [status] makes the
    normalisation throw, and a record without [created] is normalised but
    makes the generic-issue projection throw. *)
Lemma C8_absent_status_or_created_counterexample :
  (Fields.status (RawTicket.fields Sample.noStatus) = None /\
   toTicket Sample.noStatus = Throws TypeError) /\
  (Fields.created (RawTicket.fields Sample.noCreated) = None /\
   exists tk,
     toTicket Sample.noCreated = Returns tk /\
     toGenericIssue tk = Throws TypeError).
Proof.
  split; split; try reflexivity.
  eexists. split; reflexivity.
Qed.

(** C8, amended. For every raw ticket that has a status and a created
    timestamp and whose epic can be resolved (the epic link is not empty,
    or every issue link that the search tests has a link type),
    normalisation and the generic-issue projection succeed whichever of
    reporter, owner, resolution, issue links, labels and resolved timestamp
    are absent; an absent reporter, owner or resolved timestamp leaves the
    normalised [reporter], [svp] or [resolved] without a value, and absent
    issue links leave [epic] undefined when there is no epic link
    either. *)
Theorem C8_absent_members_tolerated (t : RawTicket.t) (st : NameRef.t) (c : string)
    (Hst : Fields.status (RawTicket.fields t) = Some st)
    (Hc : Fields.created (RawTicket.fields t) = Some c)
    (Hepic : EpicResolves (RawTicket.fields t)) :
  exists tk g,
    toTicket t = Returns tk /\
    toGenericIssue tk = Returns g /\
    let f := RawTicket.fields t in
    (Fields.reporter f = None -> Ticket.reporter tk = None) /\
    (Fields.customfield_28100 f = None -> Ticket.svp tk = None) /\
    (Fields.resolutiondate f = None ->
     Ticket.resolved tk = None /\ GenericIssue.resolved g = None) /\
    (Fields.issuelinks f = None -> Fields.customfield_10002 f = None ->
     Ticket.epic tk = None).
Proof.
  apply epicOf_resolves in Hepic as [epic He].
  destruct (toTicket_with_status t Hst He) as [status [_ Ht]].
  eexists. eexists. split; [exact Ht|].
  unfold toGenericIssue. simpl. rewrite Hc.
  split; [reflexivity|]. simpl.
  split; [|split; [|split]].
  - intros H. now rewrite H.
  - intros H. now rewrite H.
  - intros H. rewrite H. split; reflexivity.
  - intros Hl Hf. unfold epicOf in He. rewrite Hf, Hl in He. simpl in He. congruence.
Qed.

Lemma C8_absent_members_tolerated_witness :
  exists tk g,
    toTicket Sample.bare = Returns tk /\
    toGenericIssue tk = Returns g /\
    Ticket.reporter tk = None /\
    Ticket.svp tk = None /\
    Ticket.resolved tk = None /\
    GenericIssue.resolved g = None /\
    Ticket.epic tk = None.
Proof.
  destruct (C8_absent_members_tolerated Sample.bare (st := NameRef.mk "Done")
              (c := "2023-05-01T10:00:00.000Z") eq_refl eq_refl
              (or_intror scans_none))
    as [tk [g [Ht [Hg [Hrep [Hsvp [Hres Hepic]]]]]]].
  exists tk, g.
  destruct (Hres eq_refl) as [Hr1 Hr2].
  repeat split; auto.
Defined.

(** The condition on the issue links cannot be dropped: a record with a
    status and a created timestamp whose first issue link has no [type]
    makes the normalisation throw when the epic link is absent or
    empty. *)
Lemma toTicket_untyped_link (t : RawTicket.t) (link : IssueLink.t)
    (rest : list IssueLink.t) :
  Fields.customfield_10002 (RawTicket.fields t) = None \/
  Fields.customfield_10002 (RawTicket.fields t) = Some EmptyString ->
  Fields.issuelinks (RawTicket.fields t) = Some (link :: rest) ->
  IssueLink.type link = None ->
  toTicket t = Throws TypeError.
Proof.
  intros Hfield Hlinks Htype.
  unfold toTicket, epicOf, linkedEpic.
  destruct Hfield as [Hf|Hf]; rewrite Hf, Hlinks; cbn [truthy_string findM bind];
    unfold relatesToProject; rewrite Htype; reflexivity.
Qed.

Example toTicket_untyped_link_sample :
  Fields.status (RawTicket.fields Sample.untypedLink) <> None /\
  Fields.created (RawTicket.fields Sample.untypedLink) <> None /\
  toTicket Sample.untypedLink = Throws TypeError.
Proof. repeat split; try discriminate. Qed.

(** ** Pagination *)

Section Pagination.

Variable client : Client.
Variable jql : string.

Lemma next_offset (m : nat) :
  (PAGE_SIZE * N.of_nat m + PAGE_SIZE)%N = (PAGE_SIZE * N.of_nat (S m))%N.
Proof. rewrite Nat2N.inj_succ. lia. Qed.

(** The loop started at page [m] with enough fuel for the pages that
    follow collects them in order and stops at the first page without
    records. *)
Lemma readAllJiraTickets_loop_pages (last : option (list RawTicket.t)) :
  hasLength last = false ->
  forall (pages : list (list RawTicket.t)) (m fuel : nat)
         (tickets : list RawTicket.t) (sent : list SearchRequest.t),
    (forall j p,
        nth_error pages j = Some p ->
        p <> [] /\
        client (pageRequest jql (PAGE_SIZE * N.of_nat (m + j))) = Returns (Some p)) ->
    client (pageRequest jql (PAGE_SIZE * N.of_nat (m + length pages))) = Returns last ->
    length pages < fuel ->
    readAllJiraTickets_loop fuel client jql (PAGE_SIZE * N.of_nat m) tickets sent
    = (Some (Returns (tickets ++ concat pages)),
       sent ++ map (fun j => pageRequest jql (PAGE_SIZE * N.of_nat j))
                   (seq m (S (length pages)))).
Proof.
  intros Hlast pages.
  induction pages as [|p ps IH]; intros m fuel tickets sent Hpages Hend Hfuel;
    (destruct fuel as [|fuel]; [inversion Hfuel|]);
    cbn [readAllJiraTickets_loop length concat seq map]; unfold readJiraPage.
  - cbn [length] in Hend. rewrite Nat.add_0_r in Hend.
    rewrite Hend, Hlast. now rewrite app_nil_r.
  - destruct (Hpages 0 p eq_refl) as [Hne Hp].
    rewrite Nat.add_0_r in Hp. rewrite Hp.
    destruct p as [|x p]; [congruence|]. cbn [hasLength issuesOf].
    rewrite next_offset.
    rewrite (IH (S m) fuel).
    + cbn [length seq map]. rewrite <- !app_assoc. reflexivity.
    + intros j q Hq. replace (S m + j) with (m + S j) by lia.
      now apply Hpages.
    + cbn [length] in Hend.
      replace (S m + length ps) with (m + S (length ps)) by lia.
      exact Hend.
    + cbn [length] in Hfuel. lia.
Qed.

End Pagination.

Lemma length_concat_sum {A : Type} (l : list (list A)) :
  length (concat l) = list_sum (map (@length A) l).
Proof.
  induction l as [|x l IH]; simpl; [reflexivity|].
  now rewrite length_app, IH.
Qed.

(** What a fetch returns and sends when the remote side serves [pages]. *)
Lemma readAllJiraTickets_pages (client : Client) (jql : string)
    (pages : list (list RawTicket.t)) (last : option (list RawTicket.t))
    (fuel : nat) (sent : list SearchRequest.t) :
  ServesPages client jql pages last ->
  length pages < fuel ->
  readAllJiraTickets fuel client jql sent
  = (Some (Returns (concat pages)), sent ++ pageRequests jql (S (length pages))).
Proof.
  intros [Hpages [Hlast Hend]] Hfuel.
  unfold readAllJiraTickets, pageRequests.
  change 0%N with (PAGE_SIZE * N.of_nat 0)%N.
  assert (Hl : hasLength last = false) by (destruct Hlast as [E|E]; now rewrite E).
  exact (@readAllJiraTickets_loop_pages client jql last Hl pages 0 fuel [] sent
           Hpages Hend Hfuel).
Qed.

(** The normalised tickets of a query are those of its pages, in order;
    the first record that cannot be normalised makes the query throw. *)
Lemma getTickets_pages (client : Client) (jql : string)
    (pages : list (list RawTicket.t)) (last : option (list RawTicket.t))
    (fuel : nat) (sent : list SearchRequest.t) :
  ServesPages client jql pages last ->
  length pages < fuel ->
  getTickets fuel client jql sent
  = (Some (mapM toTicket (concat pages)), sent ++ pageRequests jql (S (length pages))).
Proof.
  intros Hserved Hfuel. unfold getTickets.
  now rewrite (readAllJiraTickets_pages _ Hserved Hfuel).
Qed.

(** C3. The fetcher requests pages of 250 records starting at offset 0,
    advances the offset by 250 after each non-empty page, stops at the
    first page whose record list is empty or absent, and returns the
    concatenation of the non-empty pages in order; the number of records
    is the sum of the page sizes, 500 for pages of 250, 250 and 0 records
    (see the witness). *)
Theorem C3_pagination (client : Client) (jql : string)
    (pages : list (list RawTicket.t)) (last : option (list RawTicket.t))
    (fuel : nat) (sent : list SearchRequest.t)
    (Hserved : ServesPages client jql pages last)
    (Hfuel : length pages < fuel) :
  readAllJiraTickets fuel client jql sent
  = (Some (Returns (concat pages)), sent ++ pageRequests jql (S (length pages))) /\
  Forall (fun req => SearchRequest.maxResults req = 250%N)
         (pageRequests jql (S (length pages))) /\
  map SearchRequest.startAt (pageRequests jql (S (length pages)))
  = map (fun j => (250 * N.of_nat j)%N) (seq 0 (S (length pages))) /\
  length (concat pages) = list_sum (map (@length RawTicket.t) pages).
Proof.
  split; [|split; [|split]].
  - now apply readAllJiraTickets_pages with (last := last).
  - unfold pageRequests. apply Forall_forall. intros req Hin.
    apply in_map_iff in Hin as [j [E _]]. now subst req.
  - unfold pageRequests. rewrite map_map. reflexivity.
  - apply length_concat_sum.
Qed.

Lemma C3_pagination_witness :
  readAllJiraTickets 3 Sample.twoPages "type = Epic" []
  = (Some (Returns (Sample.page0 ++ Sample.page1)),
     [ pageRequest "type = Epic" 0; pageRequest "type = Epic" 250;
       pageRequest "type = Epic" 500 ]) /\
  length (Sample.page0 ++ Sample.page1) = 500.
Proof.
  assert (Hserved : ServesPages Sample.twoPages "type = Epic"
                      [Sample.page0; Sample.page1] (Some [])).
  { split; [|split; [now right | reflexivity]].
    intros j p Hj.
    destruct j as [|[|j]]; simpl in Hj.
    - injection Hj as Hj. subst p. split; [discriminate | reflexivity].
    - injection Hj as Hj. subst p. split; [discriminate | reflexivity].
    - destruct j; discriminate. }
  destruct (C3_pagination (fuel := 3) [] Hserved) as [Hrun [_ [_ Hlen]]];
    [simpl; lia|].
  split.
  - rewrite Hrun. reflexivity.
  - transitivity (list_sum (map (@length RawTicket.t) [Sample.page0; Sample.page1]));
      [rewrite <- Hlen|]; reflexivity.
Defined.

(** ** Own properties of an object *)

Section OwnProperties.

Variable V : Type.
Implicit Types (o : JsObject.props V) (k : string) (v : V).

Lemma own_get_None o k : JsObject.own_get o k = None <-> ~ In k (keys o).
Proof.
  unfold keys in *.
  induction o as [|[k' v'] o IH]; simpl.
  - tauto.
  - destruct (k' =? k) eqn:E.
    + apply String.eqb_eq in E. split; [discriminate | intros H; exfalso; auto].
    + apply String.eqb_neq in E. rewrite IH. tauto.
Qed.

Lemma own_get_In o k v : JsObject.own_get o k = Some v -> In (k, v) o.
Proof.
  unfold keys in *.
  induction o as [|[k' v'] o IH]; simpl; [discriminate|].
  destruct (k' =? k) eqn:E.
  - apply String.eqb_eq in E. intros H. injection H as H. subst. now left.
  - intros H. right. auto.
Qed.

Lemma In_own_get o k v : NoDup (keys o) -> In (k, v) o -> JsObject.own_get o k = Some v.
Proof.
  unfold keys in *.
  induction o as [|[k' v'] o IH]; simpl; [tauto|].
  intros Hnd [H|H].
  - injection H as H1 H2. subst. now rewrite String.eqb_refl.
  - inversion Hnd as [|? ? Hnot Hnd']; subst.
    destruct (k' =? k) eqn:E.
    + apply String.eqb_eq in E. subst k'. exfalso. apply Hnot.
      change k with (fst (k, v)). now apply in_map.
    + auto.
Qed.

(** Assignment to an existing key keeps the keys; to a new key it appends. *)
Lemma keys_own_set_old o k v : In k (keys o) -> keys (JsObject.own_set o k v) = keys o.
Proof.
  unfold keys in *.
  induction o as [|[k' v'] o IH]; simpl; [tauto|].
  intros H. destruct (k' =? k) eqn:E; simpl; [reflexivity|].
  apply String.eqb_neq in E. destruct H as [H|H]; [congruence|].
  now rewrite IH.
Qed.

Lemma keys_own_set_new o k v : ~ In k (keys o) -> keys (JsObject.own_set o k v) = keys o ++ [k].
Proof.
  unfold keys in *.
  induction o as [|[k' v'] o IH]; simpl; [reflexivity|].
  intros H. destruct (k' =? k) eqn:E; simpl.
  - apply String.eqb_eq in E. tauto.
  - rewrite IH; tauto.
Qed.

(** Replacing the value of an own key rewrites that entry alone. *)
Lemma own_set_existing o k v v' :
  NoDup (keys o) ->
  JsObject.own_get o k = Some v ->
  JsObject.own_set o k v'
  = map (fun kv => if fst kv =? k then (fst kv, v') else kv) o.
Proof.
  unfold keys in *.
  induction o as [|[k' w] o IH]; simpl; [discriminate|].
  intros Hnd Hget. inversion Hnd as [|? ? Hnot Hnd']; subst.
  destruct (k' =? k) eqn:E.
  - f_equal. apply String.eqb_eq in E. subst k'.
    rewrite <- (map_id o) at 1. apply map_ext_in.
    intros [k'' w'] Hin. simpl.
    destruct (k'' =? k) eqn:E'; [|reflexivity].
    apply String.eqb_eq in E'. subst k''. exfalso. apply Hnot.
    change k with (fst (k, w')). now apply in_map.
  - f_equal. now apply IH.
Qed.

Lemma indexed_without_indices o :
  Forall (fun k => JsObject.array_index k = None) (keys o) ->
  JsObject.indexed o = [].
Proof.
  unfold keys in *.
  induction o as [|[k v] o IH]; simpl; [reflexivity|].
  intros H. inversion H as [|? ? Hk Ho]; subst. simpl in Hk. rewrite Hk. auto.
Qed.

Lemma named_without_indices o :
  Forall (fun k => JsObject.array_index k = None) (keys o) ->
  JsObject.named o = o.
Proof.
  unfold JsObject.named, keys.
  induction o as [|[k v] o IH]; simpl; [reflexivity|].
  intros H. inversion H as [|? ? Hk Ho]; subst. simpl in Hk.
  unfold JsObject.is_array_index. rewrite Hk. simpl. f_equal. auto.
Qed.

(** Without array indices among the keys, [Object.values] lists the values
    in creation order. *)
Lemma values_without_indices o :
  Forall (fun k => JsObject.array_index k = None) (keys o) ->
  JsObject.values o = map snd o.
Proof.
  intros H. unfold JsObject.values.
  now rewrite indexed_without_indices, named_without_indices.
Qed.

Lemma In_insert_by_index n v (l : list (N * V)) x :
  In x (JsObject.insert_by_index n v l) <-> x = (n, v) \/ In x l.
Proof.
  induction l as [|[m w] l IH]; simpl.
  - intuition.
  - destruct (n <=? m)%N; simpl; [intuition|].
    rewrite IH. intuition.
Qed.

(** Whatever the order, [Object.values] lists the values of the own
    properties and nothing else. *)
Lemma In_values o v : In v (JsObject.values o) -> exists k, In (k, v) o.
Proof.
  unfold JsObject.values. rewrite in_app_iff, !in_map_iff.
  intros [[[n v'] [E Hin]]|[[k v'] [E Hin]]]; simpl in E; subst v'.
  - induction o as [|[k w] o IH]; simpl in Hin; [contradiction|].
    destruct (JsObject.array_index k).
    + apply In_insert_by_index in Hin as [Hin|Hin].
      * injection Hin as _ Hv. subst. exists k. now left.
      * destruct (IH Hin) as [k' Hk']. exists k'. now right.
    + destruct (IH Hin) as [k' Hk']. exists k'. now right.
  - exists k. unfold JsObject.named in Hin. now apply filter_In in Hin as [Hin _].
Qed.

End OwnProperties.

(** ** The epic loop *)

Lemma unseen_spec (ks : list string) (k : string) : unseen ks k = true <-> ~ In k ks.
Proof.
  unfold unseen. rewrite negb_true_iff, <- not_true_iff_false, existsb_exists.
  split.
  - intros H Hin. apply H. exists k. split; [exact Hin | apply String.eqb_refl].
  - intros H [x [Hin E]]. apply String.eqb_eq in E. now subst.
Qed.

Lemma filter_filter_ext {A : Type} (p q r : A -> bool) (l : list A) :
  (forall x, In x l -> p x = q x && r x) ->
  filter p l = filter q (filter r l).
Proof.
  induction l as [|x l IH]; simpl; [reflexivity|].
  intros H. rewrite (H x (or_introl eq_refl)).
  destruct (r x); simpl.
  - rewrite andb_true_r. destruct (q x); rewrite IH; auto.
  - rewrite andb_false_r. auto.
Qed.

Lemma In_firstSeen (l : list string) (k : string) : In k (firstSeen l) -> In k l.
Proof.
  induction l as [|x l IH]; simpl; [tauto|].
  intros [H|H]; [now left|].
  apply filter_In in H as [H _]. right. auto.
Qed.

Lemma In_insertionOrder (epics : list Ticket.t) (k : string) :
  In k (insertionOrder epics) -> In k (map Ticket.key epics) /\ k <> "__proto__".
Proof.
  unfold insertionOrder. intros H. apply In_firstSeen in H.
  apply filter_In in H as [H Hk]. split; [exact H|].
  apply negb_true_iff, String.eqb_neq in Hk. exact Hk.
Qed.

Lemma addEpic_returns (c c' : Consolidated.t) (epic : Ticket.t) :
  addEpic c epic = Returns c' ->
  exists g,
    toGenericIssue epic = Returns g /\
    GenericIssue.key g = Ticket.key epic /\
    c' = set c (Ticket.key epic) (Epic.mk g (Ticket.svp epic) [] []).
Proof.
  unfold addEpic. destruct (toGenericIssue epic) as [g|err] eqn:Eg; simpl; [|discriminate].
  intros H. injection H as H. exists g. repeat split; auto.
  unfold toGenericIssue in Eg. destruct (Ticket.created epic); [|discriminate].
  injection Eg as Eg. now subst g.
Qed.

(** The own keys after the epic loop: the keys there were, then the new
    keys in the order of their first occurrence. *)
Lemma keys_after_epics (epics : list Ticket.t) :
  forall c c',
    forOf addEpic epics c = Returns c' ->
    keys (Consolidated.own c')
    = keys (Consolidated.own c)
      ++ filter (unseen (keys (Consolidated.own c))) (insertionOrder epics).
Proof.
  unfold insertionOrder.
  induction epics as [|epic epics IH]; intros c c' Hrun; simpl in Hrun.
  - injection Hrun as Hrun. subst c'. simpl. now rewrite app_nil_r.
  - destruct (addEpic c epic) as [c1|err] eqn:E1; simpl in Hrun; [|discriminate].
    apply addEpic_returns in E1 as [g [_ [_ Hc1]]].
    rewrite (IH _ _ Hrun). subst c1. unfold set. simpl.
    destruct (Ticket.key epic =? "__proto__") eqn:Ep; simpl; [reflexivity|].
    set (k := Ticket.key epic).
    set (rest := firstSeen _).
    destruct (unseen (keys (Consolidated.own c)) k) eqn:Eu.
    + apply unseen_spec in Eu as Hnew.
      rewrite keys_own_set_new by exact Hnew.
      rewrite <- app_assoc. simpl. do 2 f_equal.
      apply filter_filter_ext. intros x _.
      unfold unseen. rewrite existsb_app. simpl. rewrite orb_false_r, negb_orb.
      now rewrite (String.eqb_sym x k).
    + assert (Hold : In k (keys (Consolidated.own c))).
      { destruct (in_dec string_dec k (keys (Consolidated.own c))) as [H|H]; [exact H|].
        apply unseen_spec in H. congruence. }
      rewrite keys_own_set_old by exact Hold. f_equal.
      apply filter_filter_ext. intros x _.
      destruct (x =? k) eqn:Ex; simpl; [|now rewrite andb_true_r].
      apply String.eqb_eq in Ex. subst x. now rewrite Eu.
Qed.

Lemma Forall_own_set {V : Type} (P : string * V -> Prop) (o : JsObject.props V)
    (k : string) (v : V) :
  Forall P o -> P (k, v) -> Forall P (JsObject.own_set o k v).
Proof.
  intros Ho Hv. induction o as [|[k' v'] o IH]; simpl.
  - now constructor.
  - inversion Ho; subst. destruct (k' =? k) eqn:E.
    + apply String.eqb_eq in E. subst k'. now constructor.
    + constructor; auto.
Qed.

Lemma NoDup_own_set {V : Type} (o : JsObject.props V) (k : string) (v : V) :
  NoDup (keys o) -> NoDup (keys (JsObject.own_set o k v)).
Proof.
  intros Hnd.
  destruct (in_dec string_dec k (keys o)) as [H|H].
  - now rewrite keys_own_set_old.
  - rewrite keys_own_set_new by exact H.
    apply NoDup_app; [exact Hnd | repeat constructor; simpl; tauto |].
    intros x Hx [E|[]]. now subst.
Qed.

(** What the epic loop establishes about the own properties. *)
Lemma entries_after_epics (epics : list Ticket.t) :
  forall c c',
    forOf addEpic epics c = Returns c' ->
    NoDup (keys (Consolidated.own c)) ->
    Forall FreshEntry (Consolidated.own c) ->
    NoDup (keys (Consolidated.own c')) /\ Forall FreshEntry (Consolidated.own c').
Proof.
  induction epics as [|epic epics IH]; intros c c' Hrun Hnd Hfresh; simpl in Hrun.
  - injection Hrun as Hrun. now subst c'.
  - destruct (addEpic c epic) as [c1|err] eqn:E1; simpl in Hrun; [|discriminate].
    apply addEpic_returns in E1 as [g [_ [Hkey Hc1]]].
    apply (IH _ _ Hrun); subst c1; unfold set;
      destruct (Ticket.key epic =? "__proto__"); simpl; auto.
    + now apply NoDup_own_set.
    + apply Forall_own_set; [exact Hfresh|].
      unfold FreshEntry, epicKey. simpl. auto.
Qed.

Lemma proto_after_epics (epics : list Ticket.t) :
  forall c c',
    forOf addEpic epics c = Returns c' ->
    Consolidated.proto c = None ->
    existsb (fun e => Ticket.key e =? "__proto__") epics = false ->
    Consolidated.proto c' = None.
Proof.
  induction epics as [|epic epics IH]; intros c c' Hrun Hp Hno; simpl in Hrun.
  - injection Hrun as Hrun. now subst c'.
  - destruct (addEpic c epic) as [c1|err] eqn:E1; simpl in Hrun; [|discriminate].
    apply addEpic_returns in E1 as [g [_ [_ Hc1]]].
    simpl in Hno. apply orb_false_iff in Hno as [Hk Hno].
    apply (IH _ _ Hrun); [|exact Hno].
    subst c1. unfold set. now rewrite Hk.
Qed.

(** ** The child loops *)

Lemma get_own (c : Consolidated.t) (k : string) :
  match JsObject.own_get (Consolidated.own c) k with
  | Some e => get c k = OwnEpic e
  | None => forall e, get c k <> OwnEpic e
  end.
Proof.
  unfold get, inObjectPrototype, ofTruthiness.
  destruct (JsObject.own_get (Consolidated.own c) k); [reflexivity|].
  intros e.
  repeat match goal with
         | |- context [match ?x with _ => _ end] => destruct x
         end; discriminate.
Qed.

Lemma childrenOf_cons {A : Type} (project : Ticket.t -> outcome A) (k : string)
    (child : Ticket.t) (children : list Ticket.t) :
  childrenOf project k (child :: children)
  = (if propertyKey (Ticket.epic child) =? k then collect (project child) else [])
    ++ childrenOf project k children.
Proof. reflexivity. Qed.

Section ChildLoop.

Variable A : Type.
Variable project : Ticket.t -> outcome A.
Variable push : A -> Epic.t -> Epic.t.

(** A child whose lookup finds no own property leaves the own properties
    as they are. *)
Lemma attach_miss (o : JsObject.props Epic.t) (child : Ticket.t)
    (children : list Ticket.t) :
  JsObject.own_get o (propertyKey (Ticket.epic child)) = None ->
  map (attach project push (child :: children)) o = map (attach project push children) o.
Proof.
  intros Hmiss. apply own_get_None in Hmiss.
  apply map_ext_in. intros [k e] Hin. unfold attach. simpl fst. simpl snd.
  rewrite childrenOf_cons.
  destruct (propertyKey (Ticket.epic child) =? k) eqn:E; [|reflexivity].
  apply String.eqb_eq in E. exfalso. apply Hmiss. rewrite E.
  change k with (fst (k, e)). now apply in_map.
Qed.

(** The own properties after a child loop: every epic has received, in
    order, the projections of the children that name its key. *)
Lemma own_after_children (children : list Ticket.t) :
  forall c c',
    NoDup (keys (Consolidated.own c)) ->
    forOf (addChild project push) children c = Returns c' ->
    Consolidated.own c' = map (attach project push children) (Consolidated.own c).
Proof.
  induction children as [|child children IH]; intros c c' Hnd Hrun; simpl in Hrun.
  - injection Hrun as Hrun. subst c'.
    rewrite <- (map_id (Consolidated.own c)) at 1.
    apply map_ext. now intros [k e].
  - destruct (addChild project push c child) as [c1|err] eqn:E1; simpl in Hrun;
      [|discriminate].
    unfold addChild in E1.
    pose proof (get_own c (propertyKey (Ticket.epic child))) as Hown.
    destruct (JsObject.own_get (Consolidated.own c) (propertyKey (Ticket.epic child)))
      as [e|] eqn:Eget.
    + rewrite Hown in E1.
      destruct (project child) as [a|err] eqn:Ea; simpl in E1; [|discriminate].
      injection E1 as E1. subst c1.
      apply IH in Hrun; [|simpl; now apply NoDup_own_set].
      rewrite Hrun. simpl.
      rewrite (@own_set_existing _ _ _ e (push a e) Hnd Eget), map_map.
      apply map_ext_in. intros [k e'] Hin. simpl fst.
      unfold attach. rewrite childrenOf_cons, Ea.
      destruct (k =? propertyKey (Ticket.epic child)) eqn:E.
      * apply String.eqb_eq in E. subst k. simpl fst. simpl snd.
        rewrite String.eqb_refl.
        apply In_own_get in Hin; [|exact Hnd]. rewrite Eget in Hin.
        injection Hin as Hin. now subst e'.
      * simpl fst. simpl snd. rewrite String.eqb_sym, E. reflexivity.
    + rewrite attach_miss by exact Eget.
      destruct (get c (propertyKey (Ticket.epic child))) as [e| p | |] eqn:Eg.
      * exfalso. now apply (Hown e).
      * destruct (project child) as [a|err]; simpl in E1; [|discriminate].
        injection E1 as E1. subst c1. apply IH in Hrun; [exact Hrun | exact Hnd].
      * discriminate.
      * injection E1 as E1. subst c1. now apply (IH _ _ Hnd Hrun).
Qed.

Lemma keys_attach (children : list Ticket.t) (o : JsObject.props Epic.t) :
  keys (map (attach project push children) o) = keys o.
Proof. unfold keys. rewrite map_map. reflexivity. Qed.

End ChildLoop.

Lemma pushAll_pushStory (gs : list Story) (e : Epic.t) :
  pushAll pushStory gs e
  = Epic.mk (Epic.issue e) (Epic.svp e) (Epic.stories e ++ gs) (Epic.scrs e).
Proof.
  unfold pushAll. revert e.
  induction gs as [|g gs IH]; intros e; simpl.
  - rewrite app_nil_r. now destruct e.
  - rewrite IH. unfold pushStory. simpl. now rewrite <- app_assoc.
Qed.

Lemma pushAll_pushScr (ss : list Scr.t) (e : Epic.t) :
  pushAll pushScr ss e
  = Epic.mk (Epic.issue e) (Epic.svp e) (Epic.stories e) (Epic.scrs e ++ ss).
Proof.
  unfold pushAll. revert e.
  induction ss as [|s ss IH]; intros e; simpl.
  - rewrite app_nil_r. now destruct e.
  - rewrite IH. unfold pushScr. simpl. now rewrite <- app_assoc.
Qed.

(** ** The join as a whole *)

(** After the three loops the own properties are those the epic loop
    created, each with its children attached. *)
Lemma consolidate_returns (scrs stories epics : list Ticket.t) (c : Consolidated.t) :
  consolidate scrs stories epics = Returns c ->
  exists c1,
    forOf addEpic epics Consolidated.empty = Returns c1 /\
    keys (Consolidated.own c1) = insertionOrder epics /\
    NoDup (keys (Consolidated.own c1)) /\
    Forall FreshEntry (Consolidated.own c1) /\
    Consolidated.own c = map (joined scrs stories) (Consolidated.own c1).
Proof.
  unfold consolidate. intros Hrun.
  destruct (forOf addEpic epics Consolidated.empty) as [c1|err] eqn:E1;
    simpl in Hrun; [|discriminate].
  destruct (forOf addStory stories c1) as [c2|err] eqn:E2; simpl in Hrun; [|discriminate].
  exists c1.
  destruct (@entries_after_epics epics _ _ E1 (NoDup_nil _) (Forall_nil _))
    as [Hnd Hfresh].
  pose proof (@keys_after_epics epics _ _ E1) as Hkeys. simpl in Hkeys.
  assert (Hall : filter (unseen []) (insertionOrder epics) = insertionOrder epics).
  { apply forallb_filter_id. apply forallb_forall. reflexivity. }
  rewrite Hall in Hkeys.
  repeat split; auto.
  unfold addStory in E2. unfold addScr in Hrun.
  apply own_after_children in E2; [|exact Hnd].
  apply own_after_children in Hrun; [|rewrite E2; now rewrite keys_attach].
  rewrite Hrun, E2, map_map. reflexivity.
Qed.

Lemma joined_shape (scrs stories : list Ticket.t) (kv : string * Epic.t) :
  FreshEntry kv ->
  joined scrs stories kv
  = (fst kv,
     Epic.mk (Epic.issue (snd kv)) (Epic.svp (snd kv))
             (childrenOf toGenericIssue (fst kv) stories)
             (childrenOf toScr (fst kv) scrs)).
Proof.
  intros [_ [Hs Hc]]. unfold joined, attach. simpl fst. simpl snd.
  rewrite pushAll_pushStory, pushAll_pushScr. simpl. now rewrite Hs, Hc.
Qed.

(** The own properties after the join: distinct keys, each record stored
    under its own key. *)
Lemma consolidate_keyed (scrs stories epics : list Ticket.t) (c : Consolidated.t) :
  consolidate scrs stories epics = Returns c ->
  keys (Consolidated.own c) = insertionOrder epics /\
  NoDup (keys (Consolidated.own c)) /\
  Forall (fun kv => epicKey (snd kv) = fst kv) (Consolidated.own c).
Proof.
  intros Hrun.
  destruct (consolidate_returns _ _ _ Hrun) as [c1 [_ [Hkeys [Hnd [Hfresh Hown]]]]].
  assert (Hk : keys (Consolidated.own c) = keys (Consolidated.own c1)).
  { rewrite Hown. unfold keys. rewrite map_map. reflexivity. }
  rewrite Hk. repeat split; auto.
  rewrite Hown. apply Forall_map. eapply Forall_impl; [|exact Hfresh].
  intros kv Hkv. rewrite (joined_shape _ _ Hkv). simpl. apply Hkv.
Qed.

Lemma type_of_storyRows (es : list Epic.t) :
  Forall (fun r => Row.type r = "Story") (flat_map storyRows es).
Proof.
  apply Forall_forall. intros r Hr.
  apply in_flat_map in Hr as [e [_ Hr]].
  unfold storyRows in Hr. apply in_map_iff in Hr as [s [E _]]. now subst r.
Qed.

Lemma type_of_scrRows (es : list Epic.t) :
  Forall (fun r => Row.type r = "SCR") (flat_map scrRows es).
Proof.
  apply Forall_forall. intros r Hr.
  apply in_flat_map in Hr as [e [_ Hr]].
  unfold scrRows in Hr. apply in_map_iff in Hr as [s [E _]]. now subst r.
Qed.

(** ** Order of the rows *)

(** The claim of C4 as the specification words it fails when epic keys are
    array indices: the epics below are inserted as "2" then "1", and the
    Story row of epic "1" precedes the Story row of epic "2". *)
Lemma C4_array_index_keys_counterexample :
  insertionOrder Sample.indexedEpics = ["2"; "1"] /\
  exists rows,
    report [] Sample.indexedStories Sample.indexedEpics = Returns rows /\
    map (fun r => (epicKey (Row.epic r), Row.type r)) rows
    = [("1", "Story"); ("2", "Story")] /\
    ~ RowsFollow (insertionOrder Sample.indexedEpics) rows.
Proof.
  split; [reflexivity|].
  eexists. split; [vm_compute; reflexivity|]. split; [reflexivity|].
  intros [es [Hk Hr]].
  destruct es as [|a [|b [|x es]]]; try discriminate Hk.
  injection Hk as Ha Hb.
  cbn [flat_map] in Hr. rewrite !app_nil_r in Hr.
  unfold storyRows, scrRows in Hr.
  destruct (Epic.stories a) as [|sa la];
    destruct (Epic.stories b) as [|sb lb];
    destruct (Epic.scrs a) as [|ca ma];
    destruct (Epic.scrs b) as [|cb mb];
    cbn [map app] in Hr.
  all: repeat match goal with
              | H : _ :: _ = [] |- _ => discriminate H
              | H : [] = _ :: _ |- _ => discriminate H
              | H : epicKey _ = _ |- _ => discriminate H
              | H : _ :: _ = _ :: _ |- _ => inversion H; clear H; subst
              | H : _ :: _ = map _ ?l ++ _ |- _ => destruct l; cbn [map app] in H
              end.
Qed.

(** C4, amended. When no epic key is an array index (a canonical decimal
    string below 2^32 - 1), every row tagged "Story" precedes every row
    tagged "SCR"; within each of the two groups the rows are ordered by the
    insertion order of their epic into the mapping (the order in which the
    epic keys were first encountered); and within one epic the children
    appear in the order in which the join appended them, which is their
    order in the fetched sequence. *)
Theorem C4_row_order (scrs stories epics : list Ticket.t) (rows : list Row.t)
    (Hkeys : Forall (fun e => JsObject.array_index (Ticket.key e) = None) epics)
    (Hrun : report scrs stories epics = Returns rows) :
  exists es : list Epic.t,
    map epicKey es = insertionOrder epics /\
    Forall (fun e =>
              Epic.stories e = childrenOf toGenericIssue (epicKey e) stories /\
              Epic.scrs e = childrenOf toScr (epicKey e) scrs) es /\
    rows = flat_map storyRows es ++ flat_map scrRows es /\
    Forall (fun r => Row.type r = "Story") (flat_map storyRows es) /\
    Forall (fun r => Row.type r = "SCR") (flat_map scrRows es).
Proof.
  unfold report in Hrun.
  destruct (consolidate scrs stories epics) as [c|err] eqn:Ec; simpl in Hrun;
    [|discriminate].
  injection Hrun as Hrun. subst rows.
  destruct (consolidate_returns _ _ _ Ec) as [c1 [_ [Hk1 [Hnd [Hfresh Hown]]]]].
  destruct (consolidate_keyed _ _ _ Ec) as [Hk [_ Hkeyed]].
  exists (map snd (Consolidated.own c)).
  split; [|split; [|split; [|split]]].
  - rewrite map_map. rewrite <- Hk. unfold keys.
    apply map_ext_in. intros kv Hin.
    rewrite Forall_forall in Hkeyed. now apply Hkeyed.
  - rewrite Hown, map_map. apply Forall_map.
    eapply Forall_impl; [|exact Hfresh].
    intros kv Hkv. rewrite (joined_shape _ _ Hkv). unfold epicKey. simpl.
    destruct Hkv as [Hkey _]. unfold epicKey in Hkey. rewrite Hkey. auto.
  - unfold flatten. rewrite values_without_indices; [reflexivity|].
    rewrite Hk. apply Forall_forall. intros k Hin.
    apply In_insertionOrder in Hin as [Hin _].
    apply in_map_iff in Hin as [e [E Hin]]. subst k.
    rewrite Forall_forall in Hkeys. now apply Hkeys.
  - apply type_of_storyRows.
  - apply type_of_scrRows.
Qed.

Lemma C4_row_order_witness :
  exists rows,
    report Sample.scrs Sample.stories Sample.epics = Returns rows /\
    map (fun r => (epicKey (Row.epic r), Row.type r)) rows
    = [ ("CENPRO-2", "Story"); ("CENPRO-1", "Story"); ("CENPRO-1", "Story");
        ("CENPRO-1", "SCR") ] /\
    exists es,
      map epicKey es = ["CENPRO-2"; "CENPRO-1"] /\
      rows = flat_map storyRows es ++ flat_map scrRows es.
Proof.
  eexists. split; [vm_compute; reflexivity|]. split; [reflexivity|].
  match goal with
  | |- exists es, _ /\ ?rows = _ =>
      assert (Hrun : report Sample.scrs Sample.stories Sample.epics = Returns rows)
        by reflexivity;
      assert (Hkeys : Forall (fun e => JsObject.array_index (Ticket.key e) = None)
                             Sample.epics)
        by (repeat (apply Forall_cons; [reflexivity|]); apply Forall_nil);
      destruct (@C4_row_order _ _ _ _ Hkeys Hrun) as [es [Hk [_ [Hr _]]]]
  end.
  exists es. split; [exact Hk | exact Hr].
Defined.

(** ** Epics without children *)

Lemma row_of_flatten (c : Consolidated.t) (r : Row.t) :
  In r (flatten c) ->
  In (Row.epic r) (JsObject.values (Consolidated.own c)) /\
  (Epic.stories (Row.epic r) <> [] \/ Epic.scrs (Row.epic r) <> []).
Proof.
  unfold flatten, storyRows, scrRows. rewrite in_app_iff, !in_flat_map.
  intros [[e [He Hr]]|[e [He Hr]]];
    apply in_map_iff in Hr as [x [E Hx]]; subst r; simpl;
    (split; [exact He|]); [left|right];
    intros Hnil; rewrite Hnil in Hx; contradiction.
Qed.

(** C6. For every epic of the aggregated mapping whose [stories] and
    [scrs] are both empty, the flattened output contains no row that
    mentions that epic, although the epic was among the fetched ones. *)
Theorem C6_childless_epics_have_no_rows (scrs stories epics : list Ticket.t)
    (c : Consolidated.t) (e : Epic.t)
    (Hrun : consolidate scrs stories epics = Returns c)
    (Hin : In e (JsObject.values (Consolidated.own c)))
    (Hstories : Epic.stories e = [])
    (Hscrs : Epic.scrs e = []) :
  In (epicKey e) (map Ticket.key epics) /\
  forall r, In r (flatten c) -> epicKey (Row.epic r) <> epicKey e.
Proof.
  destruct (consolidate_keyed _ _ _ Hrun) as [Hk [Hnd Hkeyed]].
  rewrite Forall_forall in Hkeyed.
  apply In_values in Hin as [k Hin].
  pose proof (Hkeyed _ Hin) as Hke. simpl in Hke.
  split.
  - rewrite Hke. apply In_insertionOrder. rewrite <- Hk.
    change k with (fst (k, e)). now apply in_map.
  - intros r Hr Heq.
    apply row_of_flatten in Hr as [Hr Hchildren].
    apply In_values in Hr as [k' Hr].
    pose proof (Hkeyed _ Hr) as Hke'. simpl in Hke'.
    assert (k' = k) by congruence. subst k'.
    apply In_own_get in Hin; [|exact Hnd].
    apply In_own_get in Hr; [|exact Hnd].
    assert (Row.epic r = e) by congruence.
    destruct Hchildren as [H'|H']; apply H'; congruence.
Qed.

Lemma C6_childless_epics_have_no_rows_witness :
  exists c,
    consolidate [] [Sample.ticket "CENPRO-12" (Some "CENPRO-2")] Sample.epics = Returns c /\
    forall r, In r (flatten c) -> epicKey (Row.epic r) <> "CENPRO-1".
Proof.
  eexists. split; [vm_compute; reflexivity|].
  match goal with
  | |- forall r, In r (flatten ?c) -> _ =>
      assert (Hrun : consolidate [] [Sample.ticket "CENPRO-12" (Some "CENPRO-2")]
                       Sample.epics = Returns c) by reflexivity;
      apply (@C6_childless_epics_have_no_rows _ _ _ _
               (Epic.mk (Sample.issue "CENPRO-1") None [] []) Hrun)
  end.
  - right. left. reflexivity.
  - reflexivity.
  - reflexivity.
Defined.

(** ** Children without a known epic *)

Lemma forOf_app {A S : Type} (body : S -> A -> outcome S) (l1 l2 : list A) (s : S) :
  forOf body (l1 ++ l2) s = (s' <- forOf body l1 s ;; forOf body l2 s').
Proof.
  revert s. induction l1 as [|a l1 IH]; intros s; simpl; [reflexivity|].
  destruct (body s a) as [s1|err]; simpl; [apply IH | reflexivity].
Qed.

Lemma epicMember_None (p : Epic.t) (k : string) :
  existsb (String.eqb k) epicMemberNames = false -> epicMember p k = None.
Proof.
  unfold epicMemberNames, epicMember. simpl. intros H.
  repeat match goal with
         | H : _ || _ = false |- _ =>
             let E := fresh "E" in
             apply orb_false_iff in H; destruct H as [E H]; rewrite E; clear E
         end.
  reflexivity.
Qed.

Lemma misses_get (c : Consolidated.t) (k : string) : Misses c k -> get c k = Falsy.
Proof.
  intros [Hown [Hproto [Hmethod Hmember]]].
  unfold get, inObjectPrototype. rewrite Hown, Hproto, Hmethod.
  destruct (Consolidated.proto c) as [p|]; [|reflexivity].
  destruct Hmember as [Hm|Hm]; [discriminate|].
  now rewrite (epicMember_None p k Hm).
Qed.

Lemma own_get_own_set_miss {V : Type} (o : JsObject.props V) (k k' : string) (v : V) :
  In k' (keys o) ->
  JsObject.own_get o k = None ->
  JsObject.own_get (JsObject.own_set o k' v) k = None.
Proof.
  intros Hin Hmiss. apply own_get_None. rewrite keys_own_set_old by exact Hin.
  now apply own_get_None.
Qed.

Section Misses.

Variable A : Type.
Variable project : Ticket.t -> outcome A.
Variable push : A -> Epic.t -> Epic.t.

Lemma misses_addChild (c c' : Consolidated.t) (child : Ticket.t) (k : string) :
  addChild project push c child = Returns c' -> Misses c k -> Misses c' k.
Proof.
  unfold addChild. intros Hrun [Hown [Hproto [Hmethod Hmember]]].
  pose proof (get_own c (propertyKey (Ticket.epic child))) as Hget.
  destruct (get c (propertyKey (Ticket.epic child))) as [e|p| |] eqn:Eg.
  - destruct (project child) as [a|err]; simpl in Hrun; [|discriminate].
    injection Hrun as Hrun. subst c'.
    repeat split; auto. simpl.
    destruct (JsObject.own_get (Consolidated.own c) (propertyKey (Ticket.epic child)))
      as [e'|] eqn:Eown; [|exfalso; now apply (Hget e)].
    apply own_get_own_set_miss; [|exact Hown].
    apply own_get_In in Eown.
    change (propertyKey (Ticket.epic child))
      with (fst (propertyKey (Ticket.epic child), e')).
    now apply in_map.
  - destruct (project child) as [a|err]; simpl in Hrun; [|discriminate].
    injection Hrun as Hrun. subst c'.
    repeat split; auto. simpl.
    destruct Hmember as [Hm|Hm]; [|now right].
    exfalso. unfold get in Eg. rewrite Hm in Eg.
    destruct (JsObject.own_get (Consolidated.own c) (propertyKey (Ticket.epic child)));
      [discriminate|].
    unfold inObjectPrototype, ofTruthiness in Eg.
    repeat match type of Eg with
           | context [if ?x then _ else _] => destruct x
           end; discriminate.
  - discriminate.
  - injection Hrun as Hrun. subst c'. repeat split; auto.
Qed.

Lemma misses_forOf (children : list Ticket.t) (k : string) :
  forall c c',
    forOf (addChild project push) children c = Returns c' ->
    Misses c k -> Misses c' k.
Proof.
  induction children as [|child children IH]; intros c c' Hrun Hmiss; simpl in Hrun.
  - injection Hrun as Hrun. now subst c'.
  - destruct (addChild project push c child) as [c1|err] eqn:E1; simpl in Hrun;
      [|discriminate].
    apply (IH _ _ Hrun). exact (misses_addChild _ E1 Hmiss).
Qed.

(** A child whose lookup misses can be removed from the sequence. *)
Lemma forOf_skip (before after : list Ticket.t) (child : Ticket.t) (c : Consolidated.t) :
  Misses c (propertyKey (Ticket.epic child)) ->
  forOf (addChild project push) (before ++ child :: after) c
  = forOf (addChild project push) (before ++ after) c.
Proof.
  intros Hmiss. rewrite !forOf_app.
  destruct (forOf (addChild project push) before c) as [c1|err] eqn:E1; simpl;
    [|reflexivity].
  apply (@misses_forOf before _ _ _ E1) in Hmiss.
  cbn [forOf]. unfold addChild at 1. now rewrite (misses_get Hmiss).
Qed.

End Misses.

Lemma misses_after_epics (epics : list Ticket.t) (child : Ticket.t) (c : Consolidated.t) :
  forOf addEpic epics Consolidated.empty = Returns c ->
  Unattached epics child ->
  Misses c (propertyKey (Ticket.epic child)).
Proof.
  intros Hrun [Hnot Hinh].
  unfold inherited in Hinh.
  apply orb_false_iff in Hinh as [Hinh Hmember].
  apply orb_false_iff in Hinh as [Hproto Hmethod].
  repeat split; auto.
  - apply own_get_None. rewrite (@keys_after_epics epics _ _ Hrun). simpl.
    intros Hin. apply filter_In in Hin as [Hin _].
    apply In_insertionOrder in Hin as [Hin _]. contradiction.
  - apply andb_false_iff in Hmember as [Hno|Hm]; [left | now right].
    now apply (@proto_after_epics epics _ _ Hrun).
Qed.

(** C5. The guard [if (consolidated[child.epic])] at lines 178 and 186 is
    there to skip the children of unknown epics, and it misses two cases.
    A story whose epic is "toString", the key of no fetched epic, passes
    the guard, because the lookup finds the method inherited from
    [Object.prototype], and the push throws a TypeError. And a story
    without epic is attached to the epic keyed "undefined", because an
    undefined property name is read as "undefined". *)
Lemma C5_inherited_or_undefined_name_counterexample :
  (Ticket.epic Sample.storyOfToString = Some "toString" /\
   ~ In "toString" (map Ticket.key [Sample.E1]) /\
   report [] [Sample.storyOfToString] [Sample.E1] = Throws TypeError) /\
  (Ticket.epic Sample.storyWithoutEpic = None /\
   report [] [Sample.storyWithoutEpic] [Sample.epicUndefined]
   = Returns [Row.mk (Epic.mk (Sample.issue "undefined") None [Sample.issue "S4"] [])
                     "Story" (StoryChild (Sample.issue "S4"))] /\
   report [] [] [Sample.epicUndefined] = Returns []).
Proof.
  split; [split; [|split]|split; [|split]]; try reflexivity.
  simpl. intros [H|[]]. discriminate H.
Qed.

(** X17. Where the guard of lines 178 and 186 does skip: a story or a
    clarification request whose epic field, read as a property name
    (undefined reads as "undefined"), is neither the key of a fetched epic
    nor the name of a property the mapping object inherits contributes no
    row and causes no error, whatever its other members: the run is the
    one without the ticket. With one epic E1, stories S1 (epic E1) and S2
    (epic E2) and clarification request C1 (epic E1), the rows are exactly
    S1 and C1 under E1 (the witness). *)
Theorem unattached_children_are_skipped (epics : list Ticket.t) (child : Ticket.t)
    (Hun : Unattached epics child) :
  (forall scrs before after,
      report scrs (before ++ child :: after) epics
      = report scrs (before ++ after) epics) /\
  (forall stories before after,
      report (before ++ child :: after) stories epics
      = report (before ++ after) stories epics).
Proof.
  unfold report, consolidate.
  split; intros other before after;
    destruct (forOf addEpic epics Consolidated.empty) as [c1|err] eqn:E1; simpl;
    try reflexivity;
    pose proof (misses_after_epics E1 Hun) as Hmiss.
  - unfold addStory. now rewrite (forOf_skip _ _ before after child Hmiss).
  - destruct (forOf addStory other c1) as [c2|err] eqn:E2; simpl; [|reflexivity].
    apply (misses_forOf _ _ other E2) in Hmiss.
    unfold addScr. now rewrite (forOf_skip _ _ before after child Hmiss).
Qed.

Lemma unattached_children_are_skipped_witness :
  Unattached [Sample.E1] Sample.S2 /\
  report [Sample.C1] [Sample.S1; Sample.S2] [Sample.E1]
  = Returns [ Row.mk Sample.epicE1 "Story" (StoryChild (Sample.issue "S1"));
              Row.mk Sample.epicE1 "SCR" (ScrChild (Scr.mk (Sample.issue "C1") None)) ].
Proof.
  assert (Hun : Unattached [Sample.E1] Sample.S2).
  { split; [|reflexivity]. simpl. intros [H|[]]. discriminate H. }
  split; [exact Hun|].
  destruct (unattached_children_are_skipped Hun) as [Hstory _].
  change [Sample.S1; Sample.S2] with ([Sample.S1] ++ Sample.S2 :: []).
  rewrite (Hstory [Sample.C1] [Sample.S1] []).
  reflexivity.
Defined.

(** ** A whole run *)

(** Against the sample remote side the run sends one request for the
    clarification requests and two for each of the other queries, and hands
    one row to the writer. *)
Example main_on_sample_server :
  main 2 Sample.server
  = (Some (Returns
             [Row.mk (Epic.mk (GenericIssue.mk "CENPRO-1" "summary" "Done" "2023-05-01" None)
                              None
                              [GenericIssue.mk "CENPRO-11" "summary" "Done"
                                               "2023-06-01" (Some "2023-06-02")]
                              [])
                     "Story"
                     (StoryChild (GenericIssue.mk "CENPRO-11" "summary" "Done"
                                                  "2023-06-01" (Some "2023-06-02")))]),
     [ pageRequest scrsJql 0;
       pageRequest storiesJql 0; pageRequest storiesJql 250;
       pageRequest epicsJql 0; pageRequest epicsJql 250 ]).
Proof. vm_compute. reflexivity. Qed.

(** Without fuel the run does not get past the first query. *)
Example main_without_fuel (client : Client) : main 0 client = (None, []).
Proof. reflexivity. Qed.

(** * Further properties of the code *)

(** ** The fetch loop beyond the successful case *)

Section FetchLoop.

Variable client : Client.
Variable jql : string.

(** Non-empty pages are consumed one per unit of fuel. *)
Lemma readAllJiraTickets_loop_prefix (pages : list (list RawTicket.t)) :
  forall (m fuel : nat) (tickets : list RawTicket.t) (sent : list SearchRequest.t),
    (forall j p,
        nth_error pages j = Some p ->
        p <> [] /\
        client (pageRequest jql (PAGE_SIZE * N.of_nat (m + j))) = Returns (Some p)) ->
    readAllJiraTickets_loop (length pages + fuel) client jql
      (PAGE_SIZE * N.of_nat m) tickets sent
    = readAllJiraTickets_loop fuel client jql
        (PAGE_SIZE * N.of_nat (m + length pages)) (tickets ++ concat pages)
        (sent ++ map (fun j => pageRequest jql (PAGE_SIZE * N.of_nat j))
                     (seq m (length pages))).
Proof.
  induction pages as [|p ps IH]; intros m fuel tickets sent Hpages.
  - cbn [length concat seq map Nat.add]. now rewrite Nat.add_0_r, !app_nil_r.
  - destruct (Hpages 0 p eq_refl) as [Hne Hp]. rewrite Nat.add_0_r in Hp.
    cbn [length Nat.add readAllJiraTickets_loop concat seq map].
    unfold readJiraPage. rewrite Hp.
    destruct p as [|x p]; [congruence|]. cbn [hasLength issuesOf].
    rewrite next_offset, (IH (S m)).
    + replace (S m + length ps) with (m + S (length ps)) by lia.
      now rewrite <- !app_assoc.
    + intros j q Hq. replace (S m + j) with (m + S j) by lia. now apply Hpages.
Qed.

End FetchLoop.

(** X1. When the request for some page is rejected, the fetch throws the
    rejection: the records of the pages before it are not returned, and no
    further request is sent. The same holds for [getTickets]. *)
Theorem fetch_rejection_propagates (client : Client) (jql : string)
    (pages : list (list RawTicket.t)) (e : JsError)
    (fuel : nat) (sent : list SearchRequest.t)
    (Hserved : ServesThenRejects client jql pages e)
    (Hfuel : length pages < fuel) :
  readAllJiraTickets fuel client jql sent
  = (Some (Throws e), sent ++ pageRequests jql (S (length pages))) /\
  getTickets fuel client jql sent
  = (Some (Throws e), sent ++ pageRequests jql (S (length pages))).
Proof.
  destruct Hserved as [Hpages Hend].
  assert (Hrun : readAllJiraTickets fuel client jql sent
                 = (Some (Throws e), sent ++ pageRequests jql (S (length pages)))).
  { unfold readAllJiraTickets, pageRequests.
    replace fuel with (length pages + S (fuel - S (length pages))) by lia.
    change 0%N with (PAGE_SIZE * N.of_nat 0)%N.
    rewrite (@readAllJiraTickets_loop_prefix client jql pages 0 _ [] sent Hpages).
    cbn [readAllJiraTickets_loop Nat.add]. unfold readJiraPage. rewrite Hend.
    rewrite seq_S, map_app, <- app_assoc. reflexivity. }
  split; [exact Hrun|].
  unfold getTickets. now rewrite Hrun.
Qed.

Lemma fetch_rejection_propagates_witness :
  getTickets 1 Sample.down epicsJql [] = (Some (Throws RequestFailed), [pageRequest epicsJql 0]).
Proof.
  assert (Hserved : ServesThenRejects Sample.down epicsJql [] RequestFailed).
  { split; [|reflexivity]. intros [|j] p Hj; discriminate Hj. }
  destruct (@fetch_rejection_propagates Sample.down epicsJql [] RequestFailed 1 []
              Hserved (Nat.lt_0_succ 0)) as [_ Hget].
  exact Hget.
Defined.

(** X2. When no page is ever empty, the loop does not end: whatever the
    fuel, it runs out, after one request per unit of fuel at the offsets
    0, 250, 500, ... *)
Theorem fetch_never_ends_without_empty_page (client : Client) (jql : string)
    (fuel : nat) (sent : list SearchRequest.t)
    (Hpages : NeverEmpty client jql) :
  readAllJiraTickets fuel client jql sent = (None, sent ++ pageRequests jql fuel) /\
  getTickets fuel client jql sent = (None, sent ++ pageRequests jql fuel).
Proof.
  assert (Hloop : forall fuel m tickets sent,
             readAllJiraTickets_loop fuel client jql (PAGE_SIZE * N.of_nat m) tickets sent
             = (None, sent ++ map (fun j => pageRequest jql (PAGE_SIZE * N.of_nat j))
                                  (seq m fuel))).
  { clear fuel sent. induction fuel as [|fuel IH]; intros m tickets sent.
    - cbn [readAllJiraTickets_loop seq map]. now rewrite app_nil_r.
    - destruct (Hpages m) as [p [Hne Hp]].
      cbn [readAllJiraTickets_loop seq map]. unfold readJiraPage. rewrite Hp.
      destruct p as [|x p]; [congruence|]. cbn [hasLength].
      rewrite next_offset, IH, <- app_assoc. reflexivity. }
  assert (Hrun : readAllJiraTickets fuel client jql sent
                 = (None, sent ++ pageRequests jql fuel)).
  { unfold readAllJiraTickets, pageRequests.
    change 0%N with (PAGE_SIZE * N.of_nat 0)%N. apply Hloop. }
  split; [exact Hrun|].
  unfold getTickets. now rewrite Hrun.
Qed.

Lemma fetch_never_ends_without_empty_page_witness :
  getTickets 3 Sample.endless epicsJql []
  = (None, [pageRequest epicsJql 0; pageRequest epicsJql 250; pageRequest epicsJql 500]).
Proof.
  assert (Hpages : NeverEmpty Sample.endless epicsJql).
  { intros j. exists [Sample.raw "CENPRO-1"]. split; [discriminate | reflexivity]. }
  destruct (@fetch_never_ends_without_empty_page Sample.endless epicsJql 3 [] Hpages)
    as [_ Hget].
  exact Hget.
Defined.

(** ** Normalisation of a whole query *)

Lemma mapM_Forall2 {A B : Type} (f : A -> outcome B) (l : list A) :
  forall l', mapM f l = Returns l' -> Forall2 (fun a b => f a = Returns b) l l'.
Proof.
  induction l as [|a l IH]; intros l' Hrun; simpl in Hrun.
  - injection Hrun as Hrun. subst l'. constructor.
  - destruct (f a) as [b|err] eqn:Ea; simpl in Hrun; [|discriminate].
    destruct (mapM f l) as [bs|err]; simpl in Hrun; [|discriminate].
    injection Hrun as Hrun. subst l'. constructor; auto.
Qed.

Lemma mapM_toTicket_total (l : list RawTicket.t) :
  Forall (fun t => Fields.status (RawTicket.fields t) <> None /\
                   EpicResolves (RawTicket.fields t)) l ->
  exists tks, mapM toTicket l = Returns tks.
Proof.
  induction 1 as [|t l Ht _ IH]; simpl.
  - now exists [].
  - apply toTicket_returns in Ht as [tk E].
    rewrite E. simpl. destruct IH as [tks Htks]. rewrite Htks. simpl. eauto.
Qed.

Lemma mapM_toTicket_throws (l : list RawTicket.t) :
  Exists (fun t => Fields.status (RawTicket.fields t) = None \/
                   ~ EpicResolves (RawTicket.fields t)) l ->
  mapM toTicket l = Throws TypeError.
Proof.
  induction l as [|t l IH]; intros Hex; [inversion Hex|]. simpl.
  destruct (toTicket t) as [tk|err] eqn:Et; simpl.
  - assert (Hok : Fields.status (RawTicket.fields t) <> None /\
                  EpicResolves (RawTicket.fields t))
      by (apply toTicket_returns; eauto).
    inversion Hex as [? ? Hbad|? ? Hrest]; subst; [tauto|].
    now rewrite (IH Hrest).
  - apply toTicket_throws_TypeError in Et as [E _]. now subst err.
Qed.

(** X4. A query that returns gives exactly one normalised ticket per
    fetched record, in fetch order, and each ticket carries the key,
    summary, created and resolved timestamps and the owner and reporter
    names of its record. *)
Theorem getTickets_one_ticket_per_record (client : Client) (jql : string)
    (pages : list (list RawTicket.t)) (last : option (list RawTicket.t))
    (fuel : nat) (sent log : list SearchRequest.t) (tks : list Ticket.t)
    (Hserved : ServesPages client jql pages last)
    (Hfuel : length pages < fuel)
    (Hrun : getTickets fuel client jql sent = (Some (Returns tks), log)) :
  Forall2 PassesThrough (concat pages) tks /\
  map Ticket.key tks = map RawTicket.key (concat pages).
Proof.
  rewrite (getTickets_pages sent Hserved Hfuel) in Hrun.
  injection Hrun as Hrun _.
  apply mapM_Forall2 in Hrun.
  assert (Hpass : Forall2 PassesThrough (concat pages) tks).
  { eapply Forall2_impl; [|exact Hrun].
    intros raw tk Ht.
    apply toTicket_returns_inv in Ht as [st [epic [status [_ [_ [_ [_ [_ H]]]]]]]].
    exact H. }
  split; [exact Hpass|].
  clear Hrun. induction Hpass as [|raw tk raws tks' [Hkey _] _ IH]; simpl;
    [reflexivity | now rewrite Hkey, IH].
Qed.

Lemma getTickets_one_ticket_per_record_witness :
  exists tks,
    getTickets 2 Sample.server storiesJql [] = (Some (Returns tks), pageRequests storiesJql 2) /\
    map Ticket.key tks = ["CENPRO-11"].
Proof.
  eexists. split; [vm_compute; reflexivity|].
  match goal with
  | |- map Ticket.key ?tks = _ =>
      assert (Hrun : getTickets 2 Sample.server storiesJql []
                     = (Some (Returns tks), pageRequests storiesJql 2)) by reflexivity
  end.
  assert (Hserved : ServesPages Sample.server storiesJql [[Sample.rawStory]] None).
  { split; [|split; [now left | reflexivity]].
    intros [|[|j]] p Hj; try discriminate Hj.
    injection Hj as Hj. subst p. split; [discriminate | reflexivity]. }
  destruct (@getTickets_one_ticket_per_record Sample.server storiesJql
              [[Sample.rawStory]] None 2 [] _ _ Hserved (Nat.lt_succ_diag_r 1) Hrun)
    as [_ Hkeys].
  exact Hkeys.
Defined.

(** X5. A query throws a TypeError as soon as one of the fetched records,
    wherever it is, has no status or an epic that cannot be resolved (an
    empty or absent epic link and an issue link without type in the way
    of the search); it returns one ticket per record when every record has
    a status and an epic that can be resolved. All pages are requested
    before any record is normalised, so the requests are the same in both
    cases. *)
Theorem getTickets_needs_every_status (client : Client) (jql : string)
    (pages : list (list RawTicket.t)) (last : option (list RawTicket.t))
    (fuel : nat) (sent : list SearchRequest.t)
    (Hserved : ServesPages client jql pages last)
    (Hfuel : length pages < fuel) :
  let log := sent ++ pageRequests jql (S (length pages)) in
  (Exists (fun t => Fields.status (RawTicket.fields t) = None \/
                    ~ EpicResolves (RawTicket.fields t)) (concat pages) ->
   getTickets fuel client jql sent = (Some (Throws TypeError), log)) /\
  (Forall (fun t => Fields.status (RawTicket.fields t) <> None /\
                    EpicResolves (RawTicket.fields t)) (concat pages) ->
   exists tks,
     getTickets fuel client jql sent = (Some (Returns tks), log) /\
     length tks = length (concat pages)).
Proof.
  simpl. rewrite (getTickets_pages sent Hserved Hfuel). split.
  - intros Hex. now rewrite (mapM_toTicket_throws Hex).
  - intros Hall. destruct (mapM_toTicket_total Hall) as [tks Htks].
    exists tks. rewrite Htks. split; [reflexivity|].
    apply mapM_Forall2 in Htks. symmetry. eapply Forall2_length. exact Htks.
Qed.

Lemma getTickets_needs_every_status_witness :
  (exists tks,
      getTickets 2 Sample.server epicsJql [] = (Some (Returns tks), pageRequests epicsJql 2) /\
      length tks = 1) /\
  getTickets 2 Sample.untyped epicsJql []
  = (Some (Throws TypeError), pageRequests epicsJql 2).
Proof.
  split.
  - assert (Hserved : ServesPages Sample.server epicsJql [[Sample.rawEpic]] None).
    { split; [|split; [now left | reflexivity]].
      intros [|[|j]] p Hj; try discriminate Hj.
      injection Hj as Hj. subst p. split; [discriminate | reflexivity]. }
    destruct (@getTickets_needs_every_status Sample.server epicsJql
                [[Sample.rawEpic]] None 2 [] Hserved (Nat.lt_succ_diag_r 1))
      as [_ Hall].
    apply Hall. simpl. apply Forall_cons; [|apply Forall_nil].
    split; [discriminate | right; constructor].
  - assert (Hserved : ServesPages Sample.untyped epicsJql
                        [[Sample.rawEpic; Sample.untypedLink]] None).
    { split; [|split; [now left | reflexivity]].
      intros [|[|j]] p Hj; try discriminate Hj.
      injection Hj as Hj. subst p. split; [discriminate | reflexivity]. }
    destruct (@getTickets_needs_every_status Sample.untyped epicsJql
                [[Sample.rawEpic; Sample.untypedLink]] None 2 [] Hserved
                (Nat.lt_succ_diag_r 1))
      as [Hex _].
    apply Hex. apply Exists_cons_tl. apply Exists_cons_hd. right.
    intros [[link [E _]]|Hscans]; [discriminate E|].
    inversion Hscans as [|link rest k [[type [Htype _]] _]|link rest Htyped _ _]; subst.
    + discriminate Htype.
    + now apply Htyped.
Defined.

(** ** What a normalised status and epic tell about the raw record *)

(** X6. A normalised status "Done" means that the raw status is "Done",
    the resolution is "Done" and the labels do not contain "ExecReject";
    a normalised "Rejected" means that the raw status is "Done" with the
    label or another resolution, or that the raw status itself is named
    "Rejected". *)
Theorem normalised_status_read_back (t : RawTicket.t) (tk : Ticket.t)
    (Hrun : toTicket t = Returns tk) :
  let f := RawTicket.fields t in
  (Ticket.status tk = "Done" <->
   statusName f = Some "Done" /\ ~ LabelledExecReject f /\ resolutionName f = Some "Done") /\
  (Ticket.status tk = "Rejected" <->
   (statusName f = Some "Done" /\
    (LabelledExecReject f \/ resolutionName f <> Some "Done")) \/
   statusName f = Some "Rejected").
Proof.
  apply toTicket_returns_inv in Hrun
    as [st [epic [status [Hst [_ [Hs [_ [Hstatus _]]]]]]]].
  simpl. unfold statusName. rewrite Hst, Hstatus. simpl.
  unfold statusOf in Hs. rewrite Hst in Hs.
  pose proof (execRejected_spec (RawTicket.fields t)) as Hexec.
  pose proof (resolutionNotDone_spec (RawTicket.fields t)) as Hres.
  assert (Hdec : resolutionName (RawTicket.fields t) = Some "Done" \/
                 resolutionName (RawTicket.fields t) <> Some "Done").
  { destruct (resolutionName (RawTicket.fields t)) as [n|]; [|right; discriminate].
    destruct (string_dec n "Done") as [E|E]; [left | right]; congruence. }
  destruct (NameRef.name st =? "Done") eqn:En.
  - apply String.eqb_eq in En. rewrite En. injection Hs as Hs. subst status.
    destruct (execRejected (RawTicket.fields t)) eqn:Ee;
      destruct (resolutionNotDone (RawTicket.fields t)) eqn:Er; simpl;
      (split; split;
       [ try discriminate
       | try (intros [_ [Hne Hre]]; exfalso; intuition congruence)
       | try discriminate
       | try (intros [[_ [Hl|Hr]]|Hrej]; exfalso; intuition congruence) ]);
      intros; intuition (try congruence).
  - apply String.eqb_neq in En. injection Hs as Hs. subst status.
    split; split.
    + intros E. congruence.
    + intros [E _]. congruence.
    + intros E. right. congruence.
    + intros [[E _]|E]; congruence.
Qed.

Lemma normalised_status_read_back_witness :
  exists tk,
    toTicket Sample.bare = Returns tk /\
    Ticket.status tk = "Rejected" /\
    resolutionName (RawTicket.fields Sample.bare) <> Some "Done".
Proof.
  eexists. split; [reflexivity|]. split; [reflexivity|].
  match goal with
  | |- _ <> _ =>
      destruct (@normalised_status_read_back Sample.bare _ eq_refl) as [_ [Hrej _]]
  end.
  destruct (Hrej eq_refl) as [[_ [[l [Hl _]]|Hres]]|Hname].
  - discriminate Hl.
  - exact Hres.
  - discriminate Hname.
Defined.

Lemma FirstQualifying_In (l : list IssueLink.t) (k : string) :
  FirstQualifying l (Some k) -> exists link, In link l /\ Qualifies link k.
Proof.
  intros H. remember (Some k) as r eqn:Er.
  induction H as [|link rest k' Hq|link rest r _ _ IH].
  - discriminate Er.
  - injection Er as Er. subst k'. exists link. split; [now left | exact Hq].
  - destruct (IH Er) as [link' [Hin Hq]]. exists link'. split; [now right | exact Hq].
Qed.

(** X7. When the epic-link field is absent or empty, a normalised epic is
    never made up: it is the outward key of one of the ticket's "Relates"
    links, so it starts with "CENPRO". *)
Theorem epic_from_links_starts_with_project (t : RawTicket.t) (tk : Ticket.t) (k : string)
    (Hrun : toTicket t = Returns tk)
    (Hfield : Fields.customfield_10002 (RawTicket.fields t) = None \/
              Fields.customfield_10002 (RawTicket.fields t) = Some EmptyString)
    (Hepic : Ticket.epic tk = Some k) :
  prefix "CENPRO" k = true /\
  exists link,
    In link (issuesOf (Fields.issuelinks (RawTicket.fields t))) /\ Qualifies link k.
Proof.
  apply toTicket_returns_inv in Hrun
    as [st [epic [status [_ [He [_ [Hepic' _]]]]]]].
  rewrite Hepic in Hepic'. subst epic.
  assert (Hlinked : linkedEpic (Fields.issuelinks (RawTicket.fields t)) = Returns (Some k)).
  { unfold epicOf in He. destruct Hfield as [Hf|Hf]; now rewrite Hf in He. }
  destruct (Fields.issuelinks (RawTicket.fields t)) as [l|]; [|discriminate Hlinked].
  apply linkedEpic_first in Hlinked as [HF _].
  apply FirstQualifying_In in HF as [link [Hin Hq]].
  split.
  - destruct Hq as [_ [issue [_ [_ Hp]]]]. exact Hp.
  - exists link. split; [exact Hin | exact Hq].
Qed.

Lemma epic_from_links_starts_with_project_witness :
  prefix "CENPRO" "CENPRO-42" = true /\
  exists link, In link [Sample.relates "CENPRO-42"] /\ Qualifies link "CENPRO-42".
Proof.
  apply (@epic_from_links_starts_with_project Sample.emptyEpicLink
           (Ticket.mk (Some "CENPRO-42") "CENPRO-7" "summary" "Done"
                      (Some "2023-05-01T10:00:00.000Z") None None None)
           "CENPRO-42").
  - reflexivity.
  - right. reflexivity.
  - reflexivity.
Defined.

(** ** The date columns *)

Lemma length_substring_0 (n : nat) (s : string) :
  String.length (substring 0 n s) = Nat.min n (String.length s).
Proof.
  revert s. induction n as [|n IH]; intros s.
  - destruct s; reflexivity.
  - destruct s as [|c r]; simpl; [reflexivity|]. now rewrite IH.
Qed.

Lemma prefix_substring_0 (n : nat) (s : string) : prefix (substring 0 n s) s = true.
Proof.
  revert s. induction n as [|n IH]; intros s.
  - destruct s; reflexivity.
  - destruct s as [|c r]; simpl; [reflexivity|].
    destruct (ascii_dec c c) as [_|Hne]; [apply IH | congruence].
Qed.

Lemma substring_0_short (n : nat) (s : string) :
  String.length s <= n -> substring 0 n s = s.
Proof.
  revert s. induction n as [|n IH]; intros s Hlen.
  - destruct s; [reflexivity | simpl in Hlen; lia].
  - destruct s as [|c r]; simpl; [reflexivity|].
    rewrite IH; [reflexivity | simpl in Hlen; lia].
Qed.

(** X8. The created and resolved dates of a generic issue are prefixes of
    the timestamps, never longer than 10 characters; a timestamp of 10
    characters or fewer, the empty one included, is kept as it is. *)
Theorem dates_are_short_prefixes (ticket : Ticket.t) (g : GenericIssue.t)
    (Hrun : toGenericIssue ticket = Returns g) :
  (exists c,
      Ticket.created ticket = Some c /\
      prefix (GenericIssue.created g) c = true /\
      String.length (GenericIssue.created g) = Nat.min 10 (String.length c) /\
      (String.length c <= 10 -> GenericIssue.created g = c)) /\
  (forall d,
      GenericIssue.resolved g = Some d ->
      exists r,
        Ticket.resolved ticket = Some r /\
        prefix d r = true /\
        String.length d = Nat.min 10 (String.length r) /\
        (String.length r <= 10 -> d = r)).
Proof.
  unfold toGenericIssue in Hrun.
  destruct (Ticket.created ticket) as [c|]; [|discriminate Hrun].
  injection Hrun as Hrun. subst g. simpl. split.
  - exists c. unfold substring_0_10.
    repeat split; auto using prefix_substring_0, length_substring_0, substring_0_short.
  - intros d Hd. destruct (Ticket.resolved ticket) as [r|]; [|discriminate Hd].
    injection Hd as Hd. subst d. exists r. unfold substring_0_10.
    repeat split; auto using prefix_substring_0, length_substring_0, substring_0_short.
Qed.

Lemma dates_are_short_prefixes_witness :
  exists g,
    toGenericIssue (Ticket.mk None "CENPRO-7" "summary" "Open" (Some "2023") None None None)
    = Returns g /\
    GenericIssue.created g = "2023".
Proof.
  eexists. split; [reflexivity|].
  match goal with
  | |- GenericIssue.created ?g = _ =>
      destruct (@dates_are_short_prefixes
                  (Ticket.mk None "CENPRO-7" "summary" "Open" (Some "2023") None None None)
                  g eq_refl) as [[c [Hc [_ [_ Hshort]]]] _]
  end.
  injection Hc as Hc. subst c. apply Hshort. simpl. lia.
Defined.

(** ** Where the rows come from *)

Lemma In_childrenOf {A : Type} (project : Ticket.t -> outcome A) (k : string)
    (children : list Ticket.t) (a : A) :
  In a (childrenOf project k children) ->
  exists child,
    In child children /\
    propertyKey (Ticket.epic child) = k /\
    project child = Returns a.
Proof.
  unfold childrenOf. rewrite in_flat_map. intros [child [Hin Ha]].
  destruct (propertyKey (Ticket.epic child) =? k) eqn:E; [|contradiction].
  apply String.eqb_eq in E.
  destruct (project child) as [a'|err] eqn:Ep; simpl in Ha; [|contradiction].
  destruct Ha as [Ha|[]]. subst a'. now exists child.
Qed.

Lemma toScr_returns_inv (scr : Ticket.t) (s : Scr.t) :
  toScr scr = Returns s ->
  exists g, toGenericIssue scr = Returns g /\ s = Scr.mk g (Ticket.reporter scr).
Proof.
  unfold toScr. destruct (toGenericIssue scr) as [g|err]; simpl; [|discriminate].
  intros H. injection H as H. now exists g.
Qed.

(** An entry of the mapping after the join, seen from the inputs. *)
Lemma joined_entry (scrs stories epics : list Ticket.t) (c : Consolidated.t)
    (e : Epic.t) :
  consolidate scrs stories epics = Returns c ->
  In e (JsObject.values (Consolidated.own c)) ->
  In (epicKey e) (insertionOrder epics) /\
  Epic.stories e = childrenOf toGenericIssue (epicKey e) stories /\
  Epic.scrs e = childrenOf toScr (epicKey e) scrs.
Proof.
  intros Hrun Hin.
  destruct (consolidate_returns _ _ _ Hrun) as [c1 [_ [Hk1 [_ [Hfresh Hown]]]]].
  apply In_values in Hin as [k Hin].
  rewrite Hown in Hin. apply in_map_iff in Hin as [kv [E Hkv]].
  rewrite Forall_forall in Hfresh. pose proof (Hfresh _ Hkv) as Hf.
  rewrite (joined_shape _ _ Hf) in E. injection E as Ek Ee. subst e.
  destruct Hf as [Hkey _]. unfold epicKey in *. simpl. rewrite Hkey.
  repeat split; auto.
  rewrite <- Hk1. unfold keys. now apply in_map.
Qed.

(** X9. Every row comes from a fetched child that names the key of the
    row's epic: a Story row holds the projection of a story, an SCR row the
    projection of a clarification request together with its reporter; and
    the epic of a row is always a fetched epic. *)
Theorem rows_come_from_fetched_children (scrs stories epics : list Ticket.t)
    (rows : list Row.t) (r : Row.t)
    (Hrun : report scrs stories epics = Returns rows)
    (Hin : In r rows) :
  In (epicKey (Row.epic r)) (map Ticket.key epics) /\ RowFrom scrs stories r.
Proof.
  unfold report in Hrun.
  destruct (consolidate scrs stories epics) as [c|err] eqn:Ec; simpl in Hrun;
    [|discriminate].
  injection Hrun as Hrun. subst rows.
  unfold flatten in Hin. rewrite in_app_iff, !in_flat_map in Hin.
  destruct Hin as [[e [He Hr]]|[e [He Hr]]];
    destruct (joined_entry _ _ _ e Ec He) as [Hkey [Hstories Hscrs]];
    apply In_insertionOrder in Hkey as [Hkey _].
  - unfold storyRows in Hr. apply in_map_iff in Hr as [g [E Hg]]. subst r. simpl.
    split; [exact Hkey|]. left. split; [reflexivity|].
    rewrite Hstories in Hg. apply In_childrenOf in Hg as [s [Hs [Hk Hp]]].
    exists s, g. auto.
  - unfold scrRows in Hr. apply in_map_iff in Hr as [x [E Hx]]. subst r. simpl.
    split; [exact Hkey|]. right. split; [reflexivity|].
    rewrite Hscrs in Hx. apply In_childrenOf in Hx as [s [Hs [Hk Hp]]].
    apply toScr_returns_inv in Hp as [g [Hg Hx]]. subst x.
    exists s, g. auto.
Qed.

Lemma rows_come_from_fetched_children_witness :
  RowFrom [Sample.C1] [Sample.S1; Sample.S2]
          (Row.mk Sample.epicE1 "SCR" (ScrChild (Scr.mk (Sample.issue "C1") None))).
Proof.
  apply (@rows_come_from_fetched_children [Sample.C1] [Sample.S1; Sample.S2] [Sample.E1]
           [ Row.mk Sample.epicE1 "Story" (StoryChild (Sample.issue "S1"));
             Row.mk Sample.epicE1 "SCR" (ScrChild (Scr.mk (Sample.issue "C1") None)) ]).
  - reflexivity.
  - right. left. reflexivity.
Defined.

(** ** Epics that share a key *)

Lemma own_get_own_set_same {V : Type} (o : JsObject.props V) (k : string) (v : V) :
  JsObject.own_get (JsObject.own_set o k v) k = Some v.
Proof.
  induction o as [|[k' v'] o IH]; simpl.
  - now rewrite String.eqb_refl.
  - destruct (k' =? k) eqn:E; simpl; rewrite E; [reflexivity | exact IH].
Qed.

Lemma own_get_own_set_other {V : Type} (o : JsObject.props V) (k k' : string) (v : V) :
  k' <> k ->
  JsObject.own_get (JsObject.own_set o k' v) k = JsObject.own_get o k.
Proof.
  intros Hne. induction o as [|[k'' v''] o IH]; simpl.
  - apply String.eqb_neq in Hne. now rewrite Hne.
  - destruct (k'' =? k') eqn:E; simpl.
    + apply String.eqb_eq in E. subst k''.
      apply String.eqb_neq in Hne. now rewrite Hne.
    + destruct (k'' =? k); [reflexivity | exact IH].
Qed.

(** After the epic loop an own key holds the record of the last epic
    ticket with that key. *)
Lemma own_get_after_epics (k : string) (epics : list Ticket.t) :
  k <> "__proto__" ->
  forall c c',
    forOf addEpic epics c = Returns c' ->
    match lastWithKey k epics with
    | Some e =>
        exists g,
          toGenericIssue e = Returns g /\
          JsObject.own_get (Consolidated.own c') k
          = Some (Epic.mk g (Ticket.svp e) [] [])
    | None =>
        JsObject.own_get (Consolidated.own c') k
        = JsObject.own_get (Consolidated.own c) k
    end.
Proof.
  intros Hk.
  induction epics as [|epic epics IH]; intros c c' Hrun; simpl in Hrun.
  - injection Hrun as Hrun. now subst c'.
  - destruct (addEpic c epic) as [c1|err] eqn:E1; simpl in Hrun; [|discriminate].
    apply addEpic_returns in E1 as [g [Hg [_ Hc1]]].
    specialize (IH _ _ Hrun). simpl.
    destruct (lastWithKey k epics) as [e|]; [exact IH|].
    rewrite IH. subst c1. unfold set.
    destruct (Ticket.key epic =? k) eqn:Ek.
    + apply String.eqb_eq in Ek. rewrite Ek.
      apply String.eqb_neq in Hk. rewrite Hk. simpl.
      exists g. split; [exact Hg | apply own_get_own_set_same].
    + apply String.eqb_neq in Ek.
      destruct (Ticket.key epic =? "__proto__"); simpl; [reflexivity|].
      now apply own_get_own_set_other.
Qed.

(** X10. The epic columns of a row are those of the last fetched epic
    ticket with the row's epic key: when several epic tickets share a key,
    the latest one overwrites the earlier ones. *)
Theorem row_epic_is_last_fetched (scrs stories epics : list Ticket.t)
    (rows : list Row.t) (r : Row.t)
    (Hrun : report scrs stories epics = Returns rows)
    (Hin : In r rows) :
  exists e,
    lastWithKey (epicKey (Row.epic r)) epics = Some e /\
    toGenericIssue e = Returns (Epic.issue (Row.epic r)) /\
    Epic.svp (Row.epic r) = Ticket.svp e.
Proof.
  unfold report in Hrun.
  destruct (consolidate scrs stories epics) as [c|err] eqn:Ec; simpl in Hrun;
    [|discriminate].
  injection Hrun as Hrun. subst rows.
  apply row_of_flatten in Hin as [Hin _].
  destruct (consolidate_returns _ _ _ Ec) as [c1 [E1 [Hk1 [Hnd [Hfresh Hown]]]]].
  apply In_values in Hin as [k Hin].
  rewrite Hown in Hin. apply in_map_iff in Hin as [[k1 e1] [E Hkv]].
  rewrite Forall_forall in Hfresh. pose proof (Hfresh _ Hkv) as Hf.
  rewrite (joined_shape _ _ Hf) in E. simpl in E. injection E as Ek Ee.
  rewrite <- Ee. unfold epicKey. simpl.
  destruct Hf as [Hkey _]. unfold epicKey in Hkey. simpl in Hkey. rewrite Hkey.
  assert (Hproto : k1 <> "__proto__").
  { apply (In_insertionOrder epics). rewrite <- Hk1.
    change k1 with (fst (k1, e1)). now apply in_map. }
  pose proof (@own_get_after_epics k1 epics Hproto _ _ E1) as Hlast.
  apply In_own_get in Hkv; [|exact Hnd].
  destruct (lastWithKey k1 epics) as [e|].
  - destruct Hlast as [g [Hg Hget]]. rewrite Hkv in Hget.
    injection Hget as Hget. subst e1. exists e. simpl. auto.
  - rewrite Hkv in Hlast. discriminate Hlast.
Qed.

Lemma row_epic_is_last_fetched_witness :
  exists rows r,
    report [] [Sample.ticket "CENPRO-11" (Some "CENPRO-1")]
           [Sample.epicFirst; Sample.epicSecond] = Returns rows /\
    rows = [r] /\
    GenericIssue.title (Epic.issue (Row.epic r)) = "Second title" /\
    Epic.svp (Row.epic r) = Some "Second owner".
Proof.
  eexists. eexists. split; [vm_compute; reflexivity|]. split; [reflexivity|].
  match goal with
  | |- GenericIssue.title (Epic.issue (Row.epic ?r)) = _ /\ _ =>
      destruct (@row_epic_is_last_fetched []
                  [Sample.ticket "CENPRO-11" (Some "CENPRO-1")]
                  [Sample.epicFirst; Sample.epicSecond] [r] r eq_refl
                  (or_introl eq_refl))
        as [e [Hlast [Hissue Hsvp]]]
  end.
  vm_compute in Hlast. injection Hlast as Hlast. subst e.
  split; [reflexivity | exact Hsvp].
Defined.

(** ** How many rows *)

Section ChildLoopInvariants.

Variable A : Type.
Variable project : Ticket.t -> outcome A.
Variable push : A -> Epic.t -> Epic.t.

(** A child that is stored leaves the keys and the kind of prototype as
    they are; when its lookup hits an own property, its projection has
    returned. *)
Lemma addChild_returns_inv (c c' : Consolidated.t) (child : Ticket.t) :
  addChild project push c child = Returns c' ->
  keys (Consolidated.own c') = keys (Consolidated.own c) /\
  (Consolidated.proto c' = None <-> Consolidated.proto c = None) /\
  (In (propertyKey (Ticket.epic child)) (keys (Consolidated.own c)) ->
   exists a, project child = Returns a).
Proof.
  unfold addChild. intros Hrun.
  pose proof (get_own c (propertyKey (Ticket.epic child))) as Hown.
  destruct (JsObject.own_get (Consolidated.own c) (propertyKey (Ticket.epic child)))
    as [e|] eqn:Eget.
  - rewrite Hown in Hrun.
    destruct (project child) as [a|err]; simpl in Hrun; [|discriminate].
    injection Hrun as Hrun. subst c'. simpl.
    split; [|split; [tauto | eauto]].
    apply keys_own_set_old. apply own_get_In in Eget.
    change (propertyKey (Ticket.epic child))
      with (fst (propertyKey (Ticket.epic child), e)).
    now apply in_map.
  - apply own_get_None in Eget.
    destruct (get c (propertyKey (Ticket.epic child))) as [e|p| |] eqn:Eg.
    + exfalso. now apply (Hown e).
    + destruct (project child) as [a|err]; simpl in Hrun; [|discriminate].
      injection Hrun as Hrun. subst c'. simpl.
      split; [reflexivity|]. split; [|tauto].
      unfold get in Eg.
      destruct (Consolidated.proto c) as [q|].
      * split; discriminate.
      * destruct (JsObject.own_get (Consolidated.own c) (propertyKey (Ticket.epic child)));
          [discriminate|].
        unfold inObjectPrototype, ofTruthiness in Eg.
        repeat match type of Eg with
               | context [if ?x then _ else _] => destruct x
               end; discriminate.
    + discriminate.
    + injection Hrun as Hrun. subst c'. tauto.
Qed.

Lemma forOf_addChild_inv (children : list Ticket.t) :
  forall c c',
    forOf (addChild project push) children c = Returns c' ->
    keys (Consolidated.own c') = keys (Consolidated.own c) /\
    (Consolidated.proto c' = None <-> Consolidated.proto c = None) /\
    (forall child,
        In child children ->
        In (propertyKey (Ticket.epic child)) (keys (Consolidated.own c)) ->
        exists a, project child = Returns a).
Proof.
  induction children as [|child children IH]; intros c c' Hrun; simpl in Hrun.
  - injection Hrun as Hrun. subst c'. repeat split; auto. intros child [].
  - destruct (addChild project push c child) as [c1|err] eqn:E1; simpl in Hrun;
      [|discriminate].
    apply addChild_returns_inv in E1 as [Hk1 [Hp1 Ha1]].
    destruct (IH _ _ Hrun) as [Hk [Hp Ha]].
    split; [congruence|]. split; [tauto|].
    intros x [Hx|Hx] Hin.
    + subst x. auto.
    + apply Ha; [exact Hx | now rewrite Hk1].
Qed.

End ChildLoopInvariants.

Lemma consolidate_stages (scrs stories epics : list Ticket.t) (c : Consolidated.t) :
  consolidate scrs stories epics = Returns c ->
  exists c1 c2,
    forOf addEpic epics Consolidated.empty = Returns c1 /\
    forOf addStory stories c1 = Returns c2 /\
    forOf addScr scrs c2 = Returns c.
Proof.
  unfold consolidate. intros Hrun.
  destruct (forOf addEpic epics Consolidated.empty) as [c1|err]; simpl in Hrun;
    [|discriminate].
  destruct (forOf addStory stories c1) as [c2|err] eqn:E2; simpl in Hrun; [|discriminate].
  now exists c1, c2.
Qed.

Lemma values_sum {V : Type} (f : V -> nat) (o : JsObject.props V) :
  list_sum (map f (JsObject.values o)) = list_sum (map (fun kv => f (snd kv)) o).
Proof.
  unfold JsObject.values, JsObject.named, JsObject.is_array_index.
  rewrite map_app, list_sum_app, !map_map.
  induction o as [|[k v] o IH]; simpl; [reflexivity|].
  destruct (JsObject.array_index k) as [n|]; simpl.
  - rewrite <- IH. clear IH.
    assert (Hins : forall l,
               list_sum (map (fun x => f (snd x)) (JsObject.insert_by_index n v l))
               = f v + list_sum (map (fun x => f (snd x)) l)).
    { induction l as [|[m w] l IHl]; simpl; [reflexivity|].
      destruct (n <=? m)%N; simpl; [reflexivity|]. rewrite IHl. lia. }
    rewrite Hins. lia.
  - rewrite <- IH. lia.
Qed.

Lemma list_sum_map_add {K : Type} (f g : K -> nat) (l : list K) :
  list_sum (map f l) + list_sum (map g l) = list_sum (map (fun k => f k + g k) l).
Proof. induction l as [|k l IH]; simpl; lia. Qed.

Lemma sum_over_distinct_keys (x : string) (n : nat) (ks : list string) :
  NoDup ks ->
  list_sum (map (fun k => if x =? k then n else 0) ks)
  = if existsb (String.eqb x) ks then n else 0.
Proof.
  induction 1 as [|k ks Hnot _ IH]; simpl; [reflexivity|].
  rewrite IH. destruct (x =? k) eqn:E; simpl; [|reflexivity].
  apply String.eqb_eq in E. subst k.
  destruct (existsb (String.eqb x) ks) eqn:Ex; [|lia].
  apply existsb_exists in Ex as [y [Hy Ey]]. apply String.eqb_eq in Ey. now subst y.
Qed.

(** Over distinct keys, the children attached to the keys are counted
    once each. *)
Lemma count_children {A : Type} (project : Ticket.t -> outcome A)
    (ks : list string) (children : list Ticket.t) :
  NoDup ks ->
  (forall child,
      In child children -> In (propertyKey (Ticket.epic child)) ks ->
      exists a, project child = Returns a) ->
  list_sum (map (fun k => length (childrenOf project k children)) ks)
  = length (filter (fun child =>
                      existsb (String.eqb (propertyKey (Ticket.epic child))) ks)
                   children).
Proof.
  intros Hnd. induction children as [|child children IH]; intros Hproj.
  - simpl. clear. induction ks as [|k ks IHk]; simpl; auto.
  - assert (Hsplit :
              list_sum (map (fun k => length (childrenOf project k (child :: children))) ks)
              = list_sum (map (fun k => if propertyKey (Ticket.epic child) =? k
                                        then length (collect (project child)) else 0) ks)
                + list_sum (map (fun k => length (childrenOf project k children)) ks)).
    { rewrite list_sum_map_add. f_equal. apply map_ext. intros k.
      rewrite childrenOf_cons, length_app.
      now destruct (propertyKey (Ticket.epic child) =? k). }
    rewrite Hsplit, sum_over_distinct_keys by exact Hnd.
    rewrite IH by (intros x Hx; apply Hproj; now right).
    simpl.
    destruct (existsb (String.eqb (propertyKey (Ticket.epic child))) ks) eqn:Ex;
      [|reflexivity].
    apply existsb_exists in Ex as [k [Hk Ek]]. apply String.eqb_eq in Ek. subst k.
    destruct (Hproj child (or_introl eq_refl) Hk) as [a Ha]. now rewrite Ha.
Qed.

(** X11. The report has exactly one row for every story and every
    clarification request whose epic names an entry of the mapping, and no
    other row; children that share a key are not merged. *)
Theorem one_row_per_attached_child (scrs stories epics : list Ticket.t)
    (rows : list Row.t)
    (Hrun : report scrs stories epics = Returns rows) :
  length rows
  = length (filter (attached epics) stories) + length (filter (attached epics) scrs).
Proof.
  unfold report in Hrun.
  destruct (consolidate scrs stories epics) as [c|err] eqn:Ec; simpl in Hrun;
    [|discriminate].
  injection Hrun as Hrun. subst rows.
  destruct (consolidate_returns _ _ _ Ec) as [c1 [E1 [Hk1 [Hnd [Hfresh Hown]]]]].
  destruct (consolidate_stages _ _ _ Ec) as [c1' [c2 [E1' [E2 E3]]]].
  rewrite E1 in E1'. injection E1' as E1'. subst c1'.
  unfold addStory in E2. apply forOf_addChild_inv in E2 as [Hk2 [_ Hstories]].
  unfold addScr in E3. apply forOf_addChild_inv in E3 as [_ [_ Hscrs]].
  rewrite Hk2 in Hscrs.
  unfold flatten. rewrite length_app, !length_flat_map.
  assert (Hlen1 : forall e, length (storyRows e) = length (Epic.stories e))
    by (intros e; apply length_map).
  assert (Hlen2 : forall e, length (scrRows e) = length (Epic.scrs e))
    by (intros e; apply length_map).
  rewrite (map_ext _ _ Hlen1), (map_ext _ _ Hlen2), !values_sum.
  rewrite Hown, !map_map.
  rewrite Forall_forall in Hfresh.
  assert (Hs : map (fun kv => length (Epic.stories (snd (joined scrs stories kv))))
                   (Consolidated.own c1)
               = map (fun k => length (childrenOf toGenericIssue k stories))
                     (keys (Consolidated.own c1))).
  { unfold keys. rewrite map_map. apply map_ext_in. intros kv Hkv.
    now rewrite (joined_shape _ _ (Hfresh _ Hkv)). }
  assert (Hc : map (fun kv => length (Epic.scrs (snd (joined scrs stories kv))))
                   (Consolidated.own c1)
               = map (fun k => length (childrenOf toScr k scrs))
                     (keys (Consolidated.own c1))).
  { unfold keys. rewrite map_map. apply map_ext_in. intros kv Hkv.
    now rewrite (joined_shape _ _ (Hfresh _ Hkv)). }
  rewrite Hs, Hc.
  rewrite (count_children _ _ Hnd Hstories), (count_children _ _ Hnd Hscrs).
  unfold attached. now rewrite Hk1.
Qed.

Lemma one_row_per_attached_child_witness :
  exists rows,
    report Sample.scrs Sample.stories Sample.epics = Returns rows /\ length rows = 4.
Proof.
  eexists. split; [vm_compute; reflexivity|].
  match goal with
  | |- length ?rows = _ =>
      rewrite (@one_row_per_attached_child Sample.scrs Sample.stories Sample.epics
                 rows eq_refl)
  end.
  reflexivity.
Defined.

(** ** When the join throws *)

Lemma toGenericIssue_throws (ticket : Ticket.t) (e : JsError) :
  toGenericIssue ticket = Throws e -> e = TypeError /\ Ticket.created ticket = None.
Proof.
  unfold toGenericIssue. destruct (Ticket.created ticket); [discriminate|].
  intros H. injection H as H. auto.
Qed.

Lemma toGenericIssue_returns (ticket : Ticket.t) :
  Ticket.created ticket <> None <-> exists g, toGenericIssue ticket = Returns g.
Proof.
  unfold toGenericIssue. destruct (Ticket.created ticket); split.
  - eauto.
  - discriminate.
  - congruence.
  - intros [g H]. discriminate H.
Qed.

Lemma toScr_returns (scr : Ticket.t) :
  Ticket.created scr <> None <-> exists s, toScr scr = Returns s.
Proof.
  unfold toScr. rewrite toGenericIssue_returns. split.
  - intros [g Hg]. rewrite Hg. simpl. eauto.
  - intros [s Hs]. destruct (toGenericIssue scr) as [g|err]; [eauto | discriminate Hs].
Qed.

Lemma toScr_throws (scr : Ticket.t) (e : JsError) : toScr scr = Throws e -> e = TypeError.
Proof.
  unfold toScr. destruct (toGenericIssue scr) as [g|err] eqn:Eg; simpl; [discriminate|].
  intros H. injection H as H. subst err. now apply toGenericIssue_throws in Eg.
Qed.

Lemma forOf_throws {A S : Type} (body : S -> A -> outcome S) (P : JsError -> Prop) :
  (forall s a e, body s a = Throws e -> P e) ->
  forall l s e, forOf body l s = Throws e -> P e.
Proof.
  intros Hbody. induction l as [|a l IH]; intros s e Hrun; simpl in Hrun; [discriminate|].
  destruct (body s a) as [s1|err] eqn:E1; simpl in Hrun.
  - eapply IH. exact Hrun.
  - injection Hrun as Hrun. subst err. eapply Hbody. exact E1.
Qed.

Lemma addChild_throws {A : Type} (project : Ticket.t -> outcome A)
    (push : A -> Epic.t -> Epic.t) :
  (forall t e, project t = Throws e -> e = TypeError) ->
  forall c child e, addChild project push c child = Throws e -> e = TypeError.
Proof.
  intros Hproject c child e. unfold addChild.
  destruct (get c (propertyKey (Ticket.epic child))).
  - destruct (project child) as [a|err] eqn:Ea; simpl; [discriminate|].
    intros H. injection H as H. subst err. eapply Hproject. exact Ea.
  - destruct (project child) as [a|err] eqn:Ea; simpl; [discriminate|].
    intros H. injection H as H. subst err. eapply Hproject. exact Ea.
  - intros H. injection H as H. auto.
  - discriminate.
Qed.

(** The join throws nothing but a TypeError. *)
Lemma report_throws_TypeError (scrs stories epics : list Ticket.t) (e : JsError) :
  report scrs stories epics = Throws e -> e = TypeError.
Proof.
  unfold report, consolidate.
  destruct (forOf addEpic epics Consolidated.empty) as [c1|err] eqn:E1; simpl.
  - destruct (forOf addStory stories c1) as [c2|err] eqn:E2; simpl.
    + destruct (forOf addScr scrs c2) as [c3|err] eqn:E3; simpl; [discriminate|].
      intros H. injection H as H. subst err.
      apply (@forOf_throws _ _ _ (fun e => e = TypeError)) in E3; [exact E3|].
      apply addChild_throws. exact toScr_throws.
    + intros H. injection H as H. subst err.
      apply (@forOf_throws _ _ _ (fun e => e = TypeError)) in E2; [exact E2|].
      apply addChild_throws. intros t e' Ht. now apply toGenericIssue_throws in Ht.
  - intros H. injection H as H. subst err.
    apply (@forOf_throws _ _ _ (fun e => e = TypeError)) in E1; [exact E1|].
    intros s a e' Ha. unfold addEpic in Ha.
    destruct (toGenericIssue a) as [g|err] eqn:Eg; simpl in Ha; [discriminate|].
    injection Ha as Ha. subst err. now apply toGenericIssue_throws in Eg.
Qed.

Lemma epics_created_after_loop (epics : list Ticket.t) :
  forall c c',
    forOf addEpic epics c = Returns c' ->
    Forall (fun e => Ticket.created e <> None) epics.
Proof.
  induction epics as [|epic epics IH]; intros c c' Hrun; simpl in Hrun; [constructor|].
  destruct (addEpic c epic) as [c1|err] eqn:E1; simpl in Hrun; [|discriminate].
  constructor; [|now apply (IH _ _ Hrun)].
  apply addEpic_returns in E1 as [g [Hg _]].
  apply toGenericIssue_returns. eauto.
Qed.

(** X12. An epic ticket without created timestamp makes the join throw a
    TypeError, whether or not it has children; so does a story or a
    clarification request without created timestamp whose epic names an
    entry of the mapping. *)
Theorem join_throws_without_created (scrs stories epics : list Ticket.t)
    (Hmissing :
       Exists (fun e => Ticket.created e = None) epics \/
       Exists (AttachedWithoutCreated epics) (stories ++ scrs)) :
  report scrs stories epics = Throws TypeError.
Proof.
  destruct (report scrs stories epics) as [rows|e] eqn:Hrun.
  - exfalso. unfold report in Hrun.
    destruct (consolidate scrs stories epics) as [c|err] eqn:Ec; simpl in Hrun;
      [|discriminate].
    destruct (consolidate_returns _ _ _ Ec) as [c1 [E1 [Hk1 _]]].
    destruct (consolidate_stages _ _ _ Ec) as [c1' [c2 [E1' [E2 E3]]]].
    rewrite E1 in E1'. injection E1' as E1'. subst c1'.
    destruct Hmissing as [Hex|Hex].
    + apply epics_created_after_loop in E1.
      rewrite Forall_forall in E1. apply Exists_exists in Hex as [x [Hx Hnone]].
      now apply (E1 x Hx).
    + unfold addStory in E2. apply forOf_addChild_inv in E2 as [Hk2 [_ Hstories]].
      unfold addScr in E3. apply forOf_addChild_inv in E3 as [_ [_ Hscrs]].
      rewrite Hk2 in Hscrs. rewrite Hk1 in Hstories, Hscrs.
      apply Exists_exists in Hex as [x [Hx [Hatt Hnone]]].
      unfold attached in Hatt. apply existsb_exists in Hatt as [k [Hk Ek]].
      apply String.eqb_eq in Ek. subst k.
      apply in_app_or in Hx as [Hx|Hx].
      * destruct (Hstories x Hx Hk) as [g Hg].
        assert (Hc : Ticket.created x <> None) by (apply toGenericIssue_returns; eauto).
        contradiction.
      * destruct (Hscrs x Hx Hk) as [s Hs].
        assert (Hc : Ticket.created x <> None) by (apply toScr_returns; eauto).
        contradiction.
  - apply report_throws_TypeError in Hrun. now subst e.
Qed.

Lemma join_throws_without_created_witness :
  report [] [] [Sample.E1; Ticket.mk None "E2" "Title of E2" "Done" None None None None]
  = Throws TypeError.
Proof.
  apply join_throws_without_created.
  left. apply Exists_cons_tl. apply Exists_cons_hd. reflexivity.
Defined.

(** ** When the join returns *)

Lemma forOf_addEpic_returns (epics : list Ticket.t) :
  Forall (fun e => Ticket.created e <> None) epics ->
  forall c, exists c', forOf addEpic epics c = Returns c'.
Proof.
  induction 1 as [|epic epics Hc _ IH]; intros c; simpl; [eauto|].
  apply toGenericIssue_returns in Hc as [g Hg].
  unfold addEpic. rewrite Hg. simpl. apply IH.
Qed.

Lemma proto_set_after_epics (epics : list Ticket.t) :
  forall c c',
    forOf addEpic epics c = Returns c' ->
    Consolidated.proto c <> None \/
    existsb (fun e => Ticket.key e =? "__proto__") epics = true ->
    Consolidated.proto c' <> None.
Proof.
  induction epics as [|epic epics IH]; intros c c' Hrun Hor; simpl in Hrun.
  - injection Hrun as Hrun. subst c'. destruct Hor as [H|H]; [exact H | discriminate H].
  - destruct (addEpic c epic) as [c1|err] eqn:E1; simpl in Hrun; [|discriminate].
    apply addEpic_returns in E1 as [g [_ [_ Hc1]]].
    apply (IH _ _ Hrun). subst c1. unfold set. simpl in Hor.
    destruct (Ticket.key epic =? "__proto__"); simpl.
    + left. discriminate.
    + destruct Hor as [H|H]; auto.
Qed.

Lemma firstSeen_In (l : list string) (k : string) : In k l -> In k (firstSeen l).
Proof.
  induction l as [|x l IH]; simpl; [tauto|].
  intros [H|H]; [now left|].
  destruct (string_dec x k) as [E|E]; [now left | right].
  apply filter_In. split; [auto|].
  apply negb_true_iff, String.eqb_neq. congruence.
Qed.

Lemma insertionOrder_In (epics : list Ticket.t) (k : string) :
  In k (map Ticket.key epics) -> k <> "__proto__" -> In k (insertionOrder epics).
Proof.
  intros Hin Hk. unfold insertionOrder. apply firstSeen_In, filter_In.
  split; [exact Hin|]. now apply negb_true_iff, String.eqb_neq.
Qed.

(** After the epic loop every child that is joinable or unattached can be
    processed. *)
Lemma ready_after_epics (epics : list Ticket.t) (c : Consolidated.t) (child : Ticket.t) :
  forOf addEpic epics Consolidated.empty = Returns c ->
  Joinable epics child \/ Unattached epics child ->
  Ready c child.
Proof.
  intros Hrun [[Hc Hin]|Hun].
  - left. split; [exact Hc|].
    destruct (string_dec (propertyKey (Ticket.epic child)) "__proto__") as [E|E].
    + right. split; [exact E|].
      apply (@proto_set_after_epics epics _ _ Hrun). right.
      rewrite E in Hin. apply in_map_iff in Hin as [e [Hk He]].
      apply existsb_exists. exists e. split; [exact He|]. now apply String.eqb_eq.
    + left. rewrite (@keys_after_epics epics _ _ Hrun). simpl.
      apply filter_In. split; [now apply insertionOrder_In | reflexivity].
  - right. now apply (misses_after_epics Hrun).
Qed.

Section ReadyChildren.

Variable A : Type.
Variable project : Ticket.t -> outcome A.
Variable push : A -> Epic.t -> Epic.t.
Hypothesis project_returns :
  forall t, Ticket.created t <> None -> exists a, project t = Returns a.

Lemma addChild_ready (c : Consolidated.t) (child : Ticket.t) :
  Ready c child -> exists c', addChild project push c child = Returns c'.
Proof.
  unfold Ready, addChild. intros [[Hc Hlookup]|Hmiss].
  - destruct (project_returns child Hc) as [a Ha]. rewrite Ha.
    pose proof (get_own c (propertyKey (Ticket.epic child))) as Hown.
    destruct (JsObject.own_get (Consolidated.own c) (propertyKey (Ticket.epic child)))
      as [e|] eqn:Eget.
    + rewrite Hown. simpl. eauto.
    + apply own_get_None in Eget.
      destruct Hlookup as [Hin|[Hk Hp]]; [contradiction|].
      assert (Hget : exists p, get c (propertyKey (Ticket.epic child)) = ProtoEpic p).
      { unfold get. rewrite Hk.
        destruct (JsObject.own_get (Consolidated.own c) "__proto__") eqn:E.
        - apply own_get_In in E. exfalso. apply Eget. rewrite Hk.
          change "__proto__" with (fst ("__proto__", t)). now apply in_map.
        - destruct (Consolidated.proto c) as [p|]; [|congruence].
          exists p. reflexivity. }
      destruct Hget as [p Hp']. rewrite Hp'. simpl. eauto.
  - rewrite (misses_get Hmiss). eauto.
Qed.

Lemma addChild_keeps_ready (c c' : Consolidated.t) (child x : Ticket.t) :
  addChild project push c child = Returns c' -> Ready c x -> Ready c' x.
Proof.
  intros Hrun. pose proof (addChild_returns_inv _ _ _ _ Hrun) as [Hk [Hp _]].
  unfold Ready. intros [[Hc Hlookup]|Hmiss].
  - left. split; [exact Hc|]. rewrite Hk.
    destruct Hlookup as [Hin|[Hx Hproto]]; [now left | right].
    split; [exact Hx | tauto].
  - right. eapply misses_addChild; [exact Hrun | exact Hmiss].
Qed.

(** A loop over children that are all ready returns, and the children
    that were ready before it are ready after it. *)
Lemma forOf_ready (children : list Ticket.t) :
  forall c,
    (forall child, In child children -> Ready c child) ->
    exists c',
      forOf (addChild project push) children c = Returns c' /\
      forall x, Ready c x -> Ready c' x.
Proof.
  induction children as [|child children IH]; intros c Hready; simpl.
  - eauto.
  - destruct (addChild_ready (Hready child (or_introl eq_refl))) as [c1 E1].
    rewrite E1. simpl.
    destruct (IH c1) as [c' [Hrun Hkeep]].
    + intros x Hx. apply (addChild_keeps_ready _ E1). apply Hready. now right.
    + exists c'. split; [exact Hrun|].
      intros x Hx. apply Hkeep. exact (addChild_keeps_ready _ E1 Hx).
Qed.

End ReadyChildren.

(** X13. The join returns whenever every epic ticket has a created
    timestamp and every story and clarification request either names the
    key of a fetched epic and has a created timestamp, or names neither a
    fetched epic nor an inherited property. *)
Theorem join_returns_on_well_formed_input (scrs stories epics : list Ticket.t)
    (Hepics : Forall (fun e => Ticket.created e <> None) epics)
    (Hchildren :
       forall child,
         In child (stories ++ scrs) ->
         Joinable epics child \/ Unattached epics child) :
  exists rows, report scrs stories epics = Returns rows.
Proof.
  unfold report, consolidate.
  destruct (forOf_addEpic_returns Hepics Consolidated.empty) as [c1 E1].
  rewrite E1. simpl.
  assert (Hgi : forall t, Ticket.created t <> None ->
                          exists g, toGenericIssue t = Returns g)
    by (intros t; apply toGenericIssue_returns).
  assert (Hscr : forall t, Ticket.created t <> None -> exists s, toScr t = Returns s)
    by (intros t; apply toScr_returns).
  destruct (@forOf_ready _ toGenericIssue pushStory Hgi stories c1) as [c2 [E2 Hkeep]].
  { intros child Hin. apply (ready_after_epics E1), Hchildren, in_or_app.
    now left. }
  unfold addStory. rewrite E2. simpl.
  destruct (@forOf_ready _ toScr pushScr Hscr scrs c2) as [c3 [E3 _]].
  { intros child Hin. apply Hkeep, (ready_after_epics E1), Hchildren, in_or_app.
    now right. }
  unfold addScr. rewrite E3. simpl. eauto.
Qed.

Lemma join_returns_on_well_formed_input_witness :
  exists rows, report [Sample.C1] [Sample.S1; Sample.S2] [Sample.E1] = Returns rows.
Proof.
  apply join_returns_on_well_formed_input.
  - repeat constructor. discriminate.
  - intros child [E|[E|[E|[]]]]; subst child.
    + left. split; [discriminate | now left].
    + right. split; [|reflexivity]. simpl. intros [H|[]]. discriminate H.
    + left. split; [discriminate | now left].
Defined.

Lemma forOf_misses {A : Type} (project : Ticket.t -> outcome A)
    (push : A -> Epic.t -> Epic.t) (children : list Ticket.t) (c : Consolidated.t) :
  (forall child, In child children -> Misses c (propertyKey (Ticket.epic child))) ->
  forOf (addChild project push) children c = Returns c.
Proof.
  induction children as [|child children IH]; intros Hmiss; simpl; [reflexivity|].
  unfold addChild at 1. rewrite (misses_get (Hmiss child (or_introl eq_refl))). simpl.
  apply IH. intros x Hx. apply Hmiss. now right.
Qed.

(** X14. When every epic ticket has a created timestamp and no story and
    no clarification request names a fetched epic (or an inherited
    property), the report is empty, however many epics were fetched; this
    covers a run without children and a run without epics. *)
Theorem no_attached_child_no_row (scrs stories epics : list Ticket.t)
    (Hepics : Forall (fun e => Ticket.created e <> None) epics)
    (Hchildren : forall child, In child (stories ++ scrs) -> Unattached epics child) :
  report scrs stories epics = Returns [].
Proof.
  unfold report, consolidate.
  destruct (forOf_addEpic_returns Hepics Consolidated.empty) as [c1 E1].
  rewrite E1. simpl.
  unfold addStory, addScr.
  rewrite forOf_misses
    by (intros child Hin; apply (misses_after_epics E1), Hchildren, in_or_app; now left).
  simpl.
  rewrite forOf_misses
    by (intros child Hin; apply (misses_after_epics E1), Hchildren, in_or_app; now right).
  simpl. f_equal.
  destruct (@entries_after_epics epics _ _ E1 (NoDup_nil _) (Forall_nil _))
    as [_ Hfresh].
  rewrite Forall_forall in Hfresh.
  assert (Hnone : forall e,
             In e (JsObject.values (Consolidated.own c1)) ->
             storyRows e = [] /\ scrRows e = []).
  { intros e He. apply In_values in He as [k He].
    destruct (Hfresh _ He) as [_ [Hs Hc]]. simpl in Hs, Hc.
    unfold storyRows, scrRows. now rewrite Hs, Hc. }
  unfold flatten.
  assert (Hflat : forall (f : Epic.t -> list Row.t) l,
             (forall e, In e l -> f e = []) -> flat_map f l = []).
  { intros f l. induction l as [|e l IH]; intros H; simpl; [reflexivity|].
    rewrite (H e (or_introl eq_refl)), IH; [reflexivity|].
    intros x Hx. apply H. now right. }
  rewrite !Hflat; [reflexivity | |]; intros e He; now apply Hnone.
Qed.

Lemma no_attached_child_no_row_witness :
  report [] [Sample.S2] Sample.epics = Returns [].
Proof.
  apply no_attached_child_no_row.
  - repeat constructor; discriminate.
  - intros child [E|[]]. subst child.
    split; [|reflexivity]. simpl. intros [H|[H|[]]]; discriminate H.
Defined.

(** ** The run as a whole *)

(** X15. When the remote side serves the pages of the three queries, the
    run asks for the clarification requests, then the stories, then the
    epics, each page once, and hands the writer the rows of the join of
    the normalised tickets. *)
Theorem main_joins_the_three_queries (client : Client) (fuel : nat)
    (pagesC pagesS pagesE : list (list RawTicket.t))
    (lastC lastS lastE : option (list RawTicket.t))
    (scrs stories epics : list Ticket.t)
    (HservedC : ServesPages client scrsJql pagesC lastC)
    (HservedS : ServesPages client storiesJql pagesS lastS)
    (HservedE : ServesPages client epicsJql pagesE lastE)
    (HfuelC : length pagesC < fuel)
    (HfuelS : length pagesS < fuel)
    (HfuelE : length pagesE < fuel)
    (HC : mapM toTicket (concat pagesC) = Returns scrs)
    (HS : mapM toTicket (concat pagesS) = Returns stories)
    (HE : mapM toTicket (concat pagesE) = Returns epics) :
  main fuel client
  = (Some (report scrs stories epics),
     pageRequests scrsJql (S (length pagesC))
     ++ pageRequests storiesJql (S (length pagesS))
     ++ pageRequests epicsJql (S (length pagesE))).
Proof.
  unfold main.
  rewrite (getTickets_pages [] HservedC HfuelC), HC.
  rewrite (getTickets_pages _ HservedS HfuelS), HS.
  rewrite (getTickets_pages _ HservedE HfuelE), HE.
  cbn [app]. now rewrite <- app_assoc.
Qed.

Lemma main_joins_the_three_queries_witness :
  exists scrs stories epics,
    main 2 Sample.server
    = (Some (report scrs stories epics),
       pageRequests scrsJql 1 ++ pageRequests storiesJql 2 ++ pageRequests epicsJql 2) /\
    (length scrs, length stories, length epics) = (0, 1, 1).
Proof.
  assert (HservedC : ServesPages Sample.server scrsJql [] (Some [])).
  { split; [|split; [now right | reflexivity]]. intros [|j] p Hj; discriminate Hj. }
  assert (HservedS : ServesPages Sample.server storiesJql [[Sample.rawStory]] None).
  { split; [|split; [now left | reflexivity]].
    intros [|[|j]] p Hj; try discriminate Hj.
    injection Hj as Hj. subst p. split; [discriminate | reflexivity]. }
  assert (HservedE : ServesPages Sample.server epicsJql [[Sample.rawEpic]] None).
  { split; [|split; [now left | reflexivity]].
    intros [|[|j]] p Hj; try discriminate Hj.
    injection Hj as Hj. subst p. split; [discriminate | reflexivity]. }
  eexists. eexists. eexists. split.
  - apply (@main_joins_the_three_queries Sample.server 2 _ _ _ _ _ _ _ _ _
             HservedC HservedS HservedE);
      try (simpl; lia); vm_compute; reflexivity.
  - reflexivity.
Defined.

(** The requests of a query all carry its filter expression, and they are
    added after the ones already sent. *)
Lemma getTickets_log (client : Client) (jql : string) (fuel : nat)
    (sent log : list SearchRequest.t) (r : option (outcome (list Ticket.t))) :
  getTickets fuel client jql sent = (r, log) ->
  exists added,
    log = sent ++ added /\
    Forall (fun req => SearchRequest.jql req = jql) added.
Proof.
  assert (Hloop : forall fuel i tickets sent,
             exists added,
               snd (readAllJiraTickets_loop fuel client jql i tickets sent) = sent ++ added /\
               Forall (fun req => SearchRequest.jql req = jql) added).
  { clear. induction fuel as [|fuel IH]; intros i tickets sent.
    - exists []. simpl. now rewrite app_nil_r.
    - cbn [readAllJiraTickets_loop].
      destruct (readJiraPage client jql i) as [issues|err].
      + destruct (hasLength issues).
        * destruct (IH (i + PAGE_SIZE)%N (tickets ++ issuesOf issues)
                       (sent ++ [pageRequest jql i])) as [added [Hlog Hall]].
          exists (pageRequest jql i :: added). rewrite Hlog, <- app_assoc.
          split; [reflexivity | now constructor].
        * exists [pageRequest jql i]. split; [reflexivity | now repeat constructor].
      + exists [pageRequest jql i]. split; [reflexivity | now repeat constructor]. }
  unfold getTickets, readAllJiraTickets. intros Hrun.
  destruct (Hloop fuel 0%N [] sent) as [added [Hlog Hall]].
  exists added. split; [|exact Hall].
  destruct (readAllJiraTickets_loop fuel client jql 0 [] sent) as [[raw|] log0];
    simpl in Hlog; injection Hrun as _ Hrun; congruence.
Qed.

(** X16. The first query that throws ends the run with its error, be it
    the first, the second or the third. When it is the query for the
    clarification requests, no request for stories or epics has been sent;
    when it is the query for the stories, no request for epics has been
    sent; when it is the query for the epics, nothing is joined. *)
Theorem main_stops_at_first_failure (client : Client) (fuel : nat) (e : JsError)
    (log : list SearchRequest.t) :
  (getTickets fuel client scrsJql [] = (Some (Throws e), log) ->
   main fuel client = (Some (Throws e), log) /\
   Forall (fun req => SearchRequest.jql req = scrsJql) log) /\
  (forall scrs sent,
      getTickets fuel client scrsJql [] = (Some (Returns scrs), sent) ->
      getTickets fuel client storiesJql sent = (Some (Throws e), log) ->
      main fuel client = (Some (Throws e), log) /\
      Forall (fun req => SearchRequest.jql req <> epicsJql) log) /\
  (forall scrs stories sent1 sent2,
      getTickets fuel client scrsJql [] = (Some (Returns scrs), sent1) ->
      getTickets fuel client storiesJql sent1 = (Some (Returns stories), sent2) ->
      getTickets fuel client epicsJql sent2 = (Some (Throws e), log) ->
      main fuel client = (Some (Throws e), log)).
Proof.
  split; [|split].
  - intros Hfirst. unfold main. rewrite Hfirst. split; [reflexivity|].
    apply getTickets_log in Hfirst as [added [Hlog Hall]]. now subst log.
  - intros scrs sent Hfirst Hsecond. unfold main. rewrite Hfirst, Hsecond.
    split; [reflexivity|].
    apply getTickets_log in Hfirst as [added1 [Hlog1 Hall1]].
    apply getTickets_log in Hsecond as [added2 [Hlog2 Hall2]].
    subst log sent. simpl. apply Forall_app. split.
    + eapply Forall_impl; [|exact Hall1].
      intros req Hreq E. rewrite Hreq in E. discriminate E.
    + eapply Forall_impl; [|exact Hall2].
      intros req Hreq E. rewrite Hreq in E.
      apply String.eqb_eq in E. vm_compute in E. discriminate E.
  - intros scrs stories sent1 sent2 Hfirst Hsecond Hthird.
    unfold main. now rewrite Hfirst, Hsecond, Hthird.
Qed.

Lemma main_stops_at_first_failure_witness :
  main 5 Sample.down = (Some (Throws RequestFailed), [pageRequest scrsJql 0]) /\
  main 5 Sample.epicsDown
  = (Some (Throws RequestFailed),
     [pageRequest scrsJql 0; pageRequest storiesJql 0; pageRequest epicsJql 0]).
Proof.
  split.
  - destruct (@main_stops_at_first_failure Sample.down 5 RequestFailed
                [pageRequest scrsJql 0]) as [Hfirst _].
    apply Hfirst. reflexivity.
  - destruct (@main_stops_at_first_failure Sample.epicsDown 5 RequestFailed
                [pageRequest scrsJql 0; pageRequest storiesJql 0; pageRequest epicsJql 0])
      as [_ [_ Hthird]].
    apply (Hthird [] [] [pageRequest scrsJql 0]
                  [pageRequest scrsJql 0; pageRequest storiesJql 0]);
      reflexivity.
Defined.
